(** * Bloom filter and HyperLogLog: a shallow embedding

    The development embeds [bloom_filter_passwords.py] (class [BloomFilter]
    and [check_password_uniqueness]) and the class [HyperLogLog] of
    [compare_methods.py], together with the pieces of the Python runtime and
    of the two hash libraries ([mmh3], [hashlib.md5]) those functions call,
    and states the properties of the specification over that embedding.

    Conventions.
    - A Python [int] is a [Z]; a Python [float] is a primitive binary64
      [float]; a Python [str] is the [string] of bytes of its UTF-8 encoding
      (both hash calls encode the text as UTF-8 before hashing).  [Py.str]
      gives that string for a text from its code points, and raises as the
      encoder does for a text with no UTF-8 encoding, such as a lone
      surrogate.
    - Memory is not bounded: a bit array or a list is built whatever its
      length, where CPython raises [MemoryError] or [OverflowError] for one
      it cannot hold.  The properties that assert a construction bound the
      length; the others take the constructed object as given or compare
      two runs.
    - A call that may raise returns a [result]; a method that mutates its
      object returns the outcome together with the object as the call
      leaves it, so that a raise keeps the mutations made before it. *)

From Stdlib Require Import ZArith Floats Lia Ascii String Reals Lra.
From stdpp Require Import base list strings gmap.

#[local] Set Warnings "-inexact-float".
Open Scope Z_scope.

(** ** The fragment of Python the two files rely on *)

Module Py.

Inductive exn :=
| ZeroDivisionError
| IndexError
| ValueError
| TypeError
| OverflowError
| UnicodeEncodeError.

Inductive result (A : Type) :=
| Ok (a : A)
| Raise (e : exn).
Arguments Ok {A} a.
Arguments Raise {A} e.

(** [a % b] on ints: floored, so the sign follows the divisor. *)
Definition mod_ (a b : Z) : result Z :=
  if decide (b = 0) then Raise ZeroDivisionError else Ok (a `mod` b).

(** [1 << n] and [x >> n] raise [ValueError] on a negative shift count. *)
Definition lshift (x n : Z) : result Z :=
  if decide (n < 0) then Raise ValueError else Ok (Z.shiftl x n).

Definition rshift (x n : Z) : result Z :=
  if decide (n < 0) then Raise ValueError else Ok (Z.shiftr x n).

(** [range(n)] *)
Definition range (n : Z) : list Z := seqZ 0 n.

(** Subscripting a sequence of length [n] with [i]: a negative index
    counts from the end, anything outside [-n, n) raises [IndexError]. *)
Definition index {A} (l : list A) (i : Z) : result nat :=
  let n := Z.of_nat (length l) in
  if decide (0 <= i < n) then Ok (Z.to_nat i)
  else if decide (- n <= i < 0) then Ok (Z.to_nat (i + n))
  else Raise IndexError.

Definition getitem {A} (l : list A) (i : Z) : result A :=
  match index l i with
  | Ok k => match l !! k with
            | Some x => Ok x
            | None => Raise IndexError
            end
  | Raise e => Raise e
  end.

Definition setitem {A} (l : list A) (i : Z) (x : A) : result (list A) :=
  match index l i with
  | Ok k => Ok (<[k := x]> l)
  | Raise e => Raise e
  end.

(** The values a byte takes. *)
Definition byte (b : Z) : Prop := 0 <= b < 256.

(** [str.encode('utf8')]: the bytes of the text. *)
Definition encode (s : string) : list Z :=
  (fun a => Z.of_N (N_of_ascii a)) <$> list_ascii_of_string s.

(** [int.bit_length()] *)
Definition bit_length (w : Z) : Z :=
  match w with
  | Z0 => 0
  | Zpos p | Zneg p => Z.pos (Pos.size p)
  end.

(** The binary digits of a positive number, most significant first. *)
Fixpoint pos_digits (p : positive) (acc : string) : string :=
  match p with
  | xH => String "1" acc
  | xO q => pos_digits q (String "0" acc)
  | xI q => pos_digits q (String "1" acc)
  end.

(** [bin(w)] *)
Definition bin (w : Z) : string :=
  match w with
  | Z0 => "0b0"
  | Zpos p => "0b" +:+ pos_digits p ""
  | Zneg p => "-0b" +:+ pos_digits p ""
  end.

Definition mem_char (a : ascii) (chars : string) : bool :=
  existsb (Ascii.eqb a) (list_ascii_of_string chars).

(** [s.lstrip(chars)]: drop leading characters that occur in [chars]. *)
Fixpoint lstrip (s chars : string) : string :=
  match s with
  | EmptyString => EmptyString
  | String a rest => if mem_char a chars then lstrip rest chars else s
  end.

(** [len(s)] *)
Definition len (s : string) : Z := Z.of_nat (String.length s).

(** Numbers as the arithmetic of [HyperLogLog.count] meets them. *)
Inductive num :=
| Int (z : Z)
| Float (f : float).

(** The real number a finite float stands for. *)
Definition real_of_float (f : float) : R :=
  match Prim2SF f with
  | S754_finite s m e =>
      let v := if decide (0 <= e) then IZR (Z.pos m * 2 ^ e)
               else (IZR (Z.pos m) / IZR (2 ^ (- e)))%R in
      if s then (- v)%R else v
  | _ => 0%R
  end.

(** [float(z)]: the nearest binary64, ties to even; [OverflowError] when
    the int is too large for a float. *)
Definition float_of_int (z : Z) : result float :=
  let f := SF2Prim (binary_normalize prec emax z 0 false) in
  if PrimFloat.is_infinity f then Raise OverflowError else Ok f.

Definition to_float (x : num) : result float :=
  match x with
  | Int z => float_of_int z
  | Float f => Ok f
  end.

Definition is_zero (x : num) : bool :=
  match x with
  | Int z => Z.eqb z 0
  | Float f => PrimFloat.eqb f 0
  end.

Definition lift2 (op : float -> float -> float) (x y : num) : result num :=
  match to_float x with
  | Raise e => Raise e
  | Ok a => match to_float y with
            | Raise e => Raise e
            | Ok b => Ok (Float (op a b))
            end
  end.

(** [x + y] *)
Definition add (x y : num) : result num :=
  match x, y with
  | Int a, Int b => Ok (Int (a + b))
  | _, _ => lift2 PrimFloat.add x y
  end.

(** [x * y] *)
Definition mul (x y : num) : result num :=
  match x, y with
  | Int a, Int b => Ok (Int (a * b))
  | _, _ => lift2 PrimFloat.mul x y
  end.

(** [x / y]: true division, always a float.  (Wherever the code divides,
    one operand is a float already; two ints are converted first, which is
    the correctly rounded quotient Python returns as long as both are below
    [2^53].) *)
Definition div (x y : num) : result num :=
  if is_zero y then Raise ZeroDivisionError
  else lift2 PrimFloat.div x y.

(** [2 ** e] for an int [e]: an int when [e >= 0], the float [2.0 ** e]
    (a power of two, exact down to the subnormals) otherwise. *)
Definition pow2 (e : Z) : num :=
  if decide (0 <= e) then Int (2 ^ e) else Float (Z.ldexp 1 e).

(** [sum(xs)]: left to right from the int [0].  (CPython 3.12 and later
    carry a compensation term through float additions; it stays zero as
    long as every partial sum is exact.) *)
Fixpoint sum_from (acc : num) (xs : list num) : result num :=
  match xs with
  | [] => Ok acc
  | x :: rest => match add acc x with
                 | Ok acc' => sum_from acc' rest
                 | Raise e => Raise e
                 end
  end.

Definition sum (xs : list num) : result num := sum_from (Int 0) xs.

(** [int(s, 16)] for a string of hexadecimal digits, which is what
    [hexdigest] returns.  The empty string raises [ValueError], as in
    Python; so does, in this model, any character that is not a hex digit
    (the sign, prefix, blanks and underscores [int] also reads are left
    out). *)
Definition hex_value (a : ascii) : option Z :=
  let n := Z.of_N (N_of_ascii a) in
  if decide (48 <= n <= 57) then Some (n - 48)
  else if decide (97 <= n <= 102) then Some (n - 87)
  else if decide (65 <= n <= 70) then Some (n - 55)
  else None.

Fixpoint int16_from (acc : Z) (s : string) : result Z :=
  match s with
  | EmptyString => Ok acc
  | String a rest => match hex_value a with
                     | Some d => int16_from (16 * acc + d) rest
                     | None => Raise ValueError
                     end
  end.

Definition int16 (s : string) : result Z :=
  match s with
  | EmptyString => Raise ValueError
  | _ => int16_from 0 s
  end.

#[global] Instance result_ret : MRet result := @Ok.
#[global] Instance result_bind : MBind result :=
  fun A B k r => match r with Ok a => k a | Raise e => Raise e end.

(** A text by its code points.  The code points of a [str] lie in
    [0, 0x10FFFF]; [text.encode('utf8')] refuses the surrogates
    [0xD800 .. 0xDFFF] with [UnicodeEncodeError] and writes every other
    code point on one to four bytes. *)
Definition code_point (c : Z) : Prop := 0 <= c <= 0x10FFFF.

Definition surrogate (c : Z) : bool := (0xD800 <=? c) && (c <=? 0xDFFF).

Definition utf8_char (c : Z) : list Z :=
  if decide (c < 0x80) then [c]
  else if decide (c < 0x800) then [0xC0 + c / 64; 0x80 + c `mod` 64]
  else if decide (c < 0x10000) then
    [0xE0 + c / 4096; 0x80 + (c / 64) `mod` 64; 0x80 + c `mod` 64]
  else
    [0xF0 + c / 262144; 0x80 + (c / 4096) `mod` 64; 0x80 + (c / 64) `mod` 64;
     0x80 + c `mod` 64].

Fixpoint utf8 (text : list Z) : result (list Z) :=
  match text with
  | [] => Ok []
  | c :: rest =>
      if surrogate c then Raise UnicodeEncodeError
      else bytes ← utf8 rest; Ok (utf8_char c ++ bytes)
  end.

(** The [str] with the code points [text] as this development holds it, the
    string of the bytes of its encoding; a text with no encoding raises
    where the code encodes it. *)
Definition of_bytes (bytes : list Z) : string :=
  string_of_list_ascii ((fun b => ascii_of_N (Z.to_N b)) <$> bytes).

Definition str (text : list Z) : result string :=
  bytes ← utf8 text; Ok (of_bytes bytes).

(** Objects that may sit in the list handed to [check_password_uniqueness]. *)
Inductive obj :=
| Str (s : string)
| Num (z : Z)
| None_
| List_ (xs : list Z).

#[global] Instance obj_eq_dec : EqDecision obj.
Proof. solve_decision. Defined.

#[global] Instance obj_countable : Countable obj.
Proof.
  refine (inj_countable'
    (fun o => match o with
              | Str s => inl (inl s)
              | Num z => inl (inr z)
              | None_ => inr (inl tt)
              | List_ xs => inr (inr xs)
              end)
    (fun c => match c with
              | inl (inl s) => Str s
              | inl (inr z) => Num z
              | inr (inl _) => None_
              | inr (inr xs) => List_ xs
              end) _).
  intros []; reflexivity.
Defined.

(** [isinstance(o, str)] *)
Definition isinstance_str (o : obj) : bool :=
  match o with
  | Str _ => true
  | _ => false
  end.

(** Truth value of an object: empty text, zero, [None] and the empty
    list are false. *)
Definition truth (o : obj) : bool :=
  match o with
  | Str s => negb (String.eqb s "")
  | Num z => negb (Z.eqb z 0)
  | None_ => false
  | List_ xs => negb (bool_decide (xs = []))
  end.

(** Lists are unhashable: using one as a dict key raises [TypeError]. *)
Definition hashable (o : obj) : bool :=
  match o with
  | List_ _ => false
  | _ => true
  end.

(** [d[key] = v] *)
Definition setkey {V} (d : gmap obj V) (key : obj) (v : V) : result (gmap obj V) :=
  if hashable key then Ok (<[key := v]> d) else Raise TypeError.

End Py.

Import Py.

(** ** The hash libraries *)

(** [mmh3.hash(key, seed)]: MurmurHash3, x86 32-bit variant, over the UTF-8
    bytes of [key], returned as a signed 32-bit int (the library's default).
    The seed is an unsigned 32-bit number, [0 <= seed < 2^32], which is all
    [_hashes] passes as long as [num_hashes <= 2^32].  (Outside that range
    the library, by its version, reduces the seed modulo [2^32] or refuses
    it; the definition does the former.) *)
Module Murmur3.

Definition mask32 (x : Z) : Z := Z.land x 0xFFFFFFFF.

Definition rotl32 (x r : Z) : Z :=
  mask32 (Z.lor (Z.shiftl x r) (Z.shiftr x (32 - r))).

Definition c1 : Z := 0xcc9e2d51.
Definition c2 : Z := 0x1b873593.

Definition mix_k (k : Z) : Z :=
  mask32 (rotl32 (mask32 (k * c1)) 15 * c2).

Definition mix_h (h k : Z) : Z :=
  mask32 (rotl32 (Z.lxor h (mix_k k)) 13 * 5 + 0xe6546b64).

Definition fmix32 (h : Z) : Z :=
  let h := Z.lxor h (Z.shiftr h 16) in
  let h := mask32 (h * 0x85ebca6b) in
  let h := Z.lxor h (Z.shiftr h 13) in
  let h := mask32 (h * 0xc2b2ae35) in
  Z.lxor h (Z.shiftr h 16).

(** Little-endian value of a run of bytes. *)
Fixpoint le_word (bytes : list Z) : Z :=
  match bytes with
  | [] => 0
  | b :: rest => Z.lor b (Z.shiftl (le_word rest) 8)
  end.

Fixpoint blocks (data : list Z) (h : Z) : Z :=
  match data with
  | b0 :: b1 :: b2 :: b3 :: rest => blocks rest (mix_h h (le_word [b0; b1; b2; b3]))
  | tail => Z.lxor h (mix_k (le_word tail))
  end.

Definition hash32 (data : list Z) (seed : Z) : Z :=
  fmix32 (Z.lxor (blocks data (mask32 seed)) (mask32 (Z.of_nat (length data)))).

Definition signed32 (x : Z) : Z :=
  if decide (x < 2 ^ 31) then x else x - 2 ^ 32.

Definition hash (key : string) (seed : Z) : Z :=
  signed32 (hash32 (encode key) seed).

End Murmur3.

(** [hashlib.md5(data)]: RFC 1321. *)
Module MD5.

Definition mask32 (x : Z) : Z := Z.land x 0xFFFFFFFF.

Definition rotl32 (x r : Z) : Z :=
  mask32 (Z.lor (Z.shiftl x r) (Z.shiftr x (32 - r))).

Definition not32 (x : Z) : Z := Z.lxor x 0xFFFFFFFF.

Definition K : list Z :=
  [ 0xd76aa478; 0xe8c7b756; 0x242070db; 0xc1bdceee;
    0xf57c0faf; 0x4787c62a; 0xa8304613; 0xfd469501;
    0x698098d8; 0x8b44f7af; 0xffff5bb1; 0x895cd7be;
    0x6b901122; 0xfd987193; 0xa679438e; 0x49b40821;
    0xf61e2562; 0xc040b340; 0x265e5a51; 0xe9b6c7aa;
    0xd62f105d; 0x02441453; 0xd8a1e681; 0xe7d3fbc8;
    0x21e1cde6; 0xc33707d6; 0xf4d50d87; 0x455a14ed;
    0xa9e3e905; 0xfcefa3f8; 0x676f02d9; 0x8d2a4c8a;
    0xfffa3942; 0x8771f681; 0x6d9d6122; 0xfde5380c;
    0xa4beea44; 0x4bdecfa9; 0xf6bb4b60; 0xbebfbc70;
    0x289b7ec6; 0xeaa127fa; 0xd4ef3085; 0x04881d05;
    0xd9d4d039; 0xe6db99e5; 0x1fa27cf8; 0xc4ac5665;
    0xf4292244; 0x432aff97; 0xab9423a7; 0xfc93a039;
    0x655b59c3; 0x8f0ccc92; 0xffeff47d; 0x85845dd1;
    0x6fa87e4f; 0xfe2ce6e0; 0xa3014314; 0x4e0811a1;
    0xf7537e82; 0xbd3af235; 0x2ad7d2bb; 0xeb86d391 ].

Definition S : list Z :=
  [ 7; 12; 17; 22; 7; 12; 17; 22; 7; 12; 17; 22; 7; 12; 17; 22;
    5; 9; 14; 20; 5; 9; 14; 20; 5; 9; 14; 20; 5; 9; 14; 20;
    4; 11; 16; 23; 4; 11; 16; 23; 4; 11; 16; 23; 4; 11; 16; 23;
    6; 10; 15; 21; 6; 10; 15; 21; 6; 10; 15; 21; 6; 10; 15; 21 ].

Definition nth_word (l : list Z) (i : Z) : Z := default 0 (l !! Z.to_nat i).

Definition step (M : list Z) (st : Z * Z * Z * Z) (i : Z) : Z * Z * Z * Z :=
  let '(a, b, c, d) := st in
  let '(f, g) :=
    if i <? 16 then (Z.lor (Z.land b c) (Z.land (not32 b) d), i)
    else if i <? 32 then (Z.lor (Z.land d b) (Z.land (not32 d) c), (5 * i + 1) `mod` 16)
    else if i <? 48 then (Z.lxor (Z.lxor b c) d, (3 * i + 5) `mod` 16)
    else (Z.lxor c (Z.lor b (not32 d)), (7 * i) `mod` 16) in
  let f := mask32 (f + a + nth_word K i + nth_word M g) in
  (d, mask32 (b + rotl32 f (nth_word S i)), b, c).

Fixpoint le_word (bytes : list Z) : Z :=
  match bytes with
  | [] => 0
  | b :: rest => Z.lor b (Z.shiftl (le_word rest) 8)
  end.

(** The sixteen little-endian words of a 64-byte chunk. *)
Definition words (chunk : list Z) : list Z :=
  (fun j => le_word (take 4 (drop (4 * j) chunk))) <$> seq 0 16.

Definition chunk (st : Z * Z * Z * Z) (data : list Z) : Z * Z * Z * Z :=
  let '(a0, b0, c0, d0) := st in
  let '(a, b, c, d) := foldl (step (words data)) st (seqZ 0 64) in
  (mask32 (a0 + a), mask32 (b0 + b), mask32 (c0 + c), mask32 (d0 + d)).

Fixpoint chunks (n : nat) (st : Z * Z * Z * Z) (data : list Z) : Z * Z * Z * Z :=
  match n with
  | O => st
  | Datatypes.S n' => chunks n' (chunk st (take 64 data)) (drop 64 data)
  end.

(** [n] as [k] little-endian bytes. *)
Fixpoint le_bytes (k : nat) (n : Z) : list Z :=
  match k with
  | O => []
  | Datatypes.S k' => Z.land n 0xFF :: le_bytes k' (Z.shiftr n 8)
  end.

Definition pad (data : list Z) : list Z :=
  let n := Z.of_nat (length data) in
  data ++ [0x80] ++ replicate (Z.to_nat ((55 - n) `mod` 64)) 0
       ++ le_bytes 8 ((8 * n) `mod` 2 ^ 64).

Definition init : Z * Z * Z * Z :=
  (0x67452301, 0xefcdab89, 0x98badcfe, 0x10325476).

(** [.digest()]: sixteen bytes. *)
Definition digest (data : list Z) : list Z :=
  let p := pad data in
  let '(a, b, c, d) := chunks (length p / 64) init p in
  le_bytes 4 a ++ le_bytes 4 b ++ le_bytes 4 c ++ le_bytes 4 d.

Definition hex_digit (d : Z) : ascii :=
  ascii_of_N (Z.to_N (if d <? 10 then 48 + d else 87 + d)).

(** [.hexdigest()]: two lowercase hex digits per byte. *)
Fixpoint hex (bytes : list Z) : string :=
  match bytes with
  | [] => EmptyString
  | b :: rest => String (hex_digit (b / 16)) (String (hex_digit (b `mod` 16)) (hex rest))
  end.

Definition hexdigest (data : list Z) : string := hex (digest data).

End MD5.

(** ** [bloom_filter_passwords.py] *)

Module BloomFilter.

Record t := mk {
  size : Z;
  num_hashes : Z;
  bit_array : list bool
}.

Definition with_bits (self : t) (bits : list bool) : t :=
  {| size := size self; num_hashes := num_hashes self; bit_array := bits |}.

(** [bitarray(size)] refuses a negative length; [setall(0)] clears it. *)
Definition __init__ (size num_hashes : Z) : result t :=
  if decide (size < 0) then Raise ValueError
  else Ok {| size := size; num_hashes := num_hashes;
             bit_array := replicate (Z.to_nat size) false |}.

(** The generator, as the outcomes of its successive [yield]s; a consumer
    stops at the first one that raises, and so does the generator: the
    entries behind a [Raise] are never produced. *)
Definition _hashes (self : t) (item : string) : list (result Z) :=
  (fun i => mod_ (Murmur3.hash item i) (size self)) <$> range (num_hashes self).

Fixpoint add_loop (self : t) (hashes : list (result Z)) : result unit * t :=
  match hashes with
  | [] => (Ok tt, self)
  | Raise e :: _ => (Raise e, self)
  | Ok hash_value :: rest =>
      match setitem (bit_array self) hash_value true with
      | Raise e => (Raise e, self)
      | Ok bits => add_loop (with_bits self bits) rest
      end
  end.

Definition add (self : t) (item : string) : result unit * t :=
  add_loop self (_hashes self item).

(** [all(self.bit_array[h] for h in hashes)]: stops at the first clear bit. *)
Fixpoint all_set (self : t) (hashes : list (result Z)) : result bool :=
  match hashes with
  | [] => Ok true
  | Raise e :: _ => Raise e
  | Ok hash_value :: rest =>
      match getitem (bit_array self) hash_value with
      | Raise e => Raise e
      | Ok true => all_set self rest
      | Ok false => Ok false
      end
  end.

Definition check (self : t) (item : string) : result bool :=
  all_set self (_hashes self item).

(** A client's calls on one filter, and the filter they leave behind. *)
Inductive call :=
| Add (item : string)
| Check (item : string).

Definition exec (self : t) (c : call) : t :=
  match c with
  | Add item => (add self item).2
  | Check _ => self
  end.

Definition run (self : t) (calls : list call) : t := foldl exec self calls.

(** What [__init__] establishes for a positive size. *)
Definition wf (self : t) : Prop :=
  0 < size self /\ Z.of_nat (length (bit_array self)) = size self.

(** A [yield] that delivers an index below [n]. *)
Definition in_range (n : Z) (r : result Z) : Prop :=
  exists h, r = Ok h /\ 0 <= h < n.

(** [self'] has the parameters and length of [self] and every set bit of it. *)
Definition extends (self self' : t) : Prop :=
  size self' = size self /\
  num_hashes self' = num_hashes self /\
  length (bit_array self') = length (bit_array self) /\
  forall i, bit_array self !! i = Some true -> bit_array self' !! i = Some true.

End BloomFilter.

Definition invalid_password : string := "Некоректний пароль".
Definition used_password : string := "вже використаний".
Definition unique_password : string := "унікальний".

(** The loop of [check_password_uniqueness], from the dict built so far. *)
Fixpoint check_password_loop (bloom_filter : BloomFilter.t) (results : gmap obj string)
    (passwords : list obj) : result (gmap obj string) * BloomFilter.t :=
  match passwords with
  | [] => (Ok results, bloom_filter)
  | password :: rest =>
      if negb (isinstance_str password) || negb (truth password) then
        match setkey results password invalid_password with
        | Raise e => (Raise e, bloom_filter)
        | Ok results => check_password_loop bloom_filter results rest
        end
      else
        match password with
        | Str item =>
            match BloomFilter.check bloom_filter item with
            | Raise e => (Raise e, bloom_filter)
            | Ok true =>
                match setkey results password used_password with
                | Raise e => (Raise e, bloom_filter)
                | Ok results => check_password_loop bloom_filter results rest
                end
            | Ok false =>
                match setkey results password unique_password with
                | Raise e => (Raise e, bloom_filter)
                | Ok results =>
                    match BloomFilter.add bloom_filter item with
                    | (Raise e, bloom_filter) => (Raise e, bloom_filter)
                    | (Ok _, bloom_filter) => check_password_loop bloom_filter results rest
                    end
                end
            end
        | _ => (Raise TypeError, bloom_filter)
        end
  end.

Definition check_password_uniqueness (bloom_filter : BloomFilter.t) (passwords : list obj)
    : result (gmap obj string) * BloomFilter.t :=
  check_password_loop bloom_filter ∅ passwords.

(** One turn of the loop when nothing raises: the non-empty text in
    [password], if it is one, the status the turn records, and the filter
    it leaves. *)
Definition valid_password (password : obj) : option string :=
  match password with
  | Str item => if String.eqb item "" then None else Some item
  | _ => None
  end.

Definition verdict (bloom_filter : BloomFilter.t) (password : obj) : string :=
  match valid_password password with
  | None => invalid_password
  | Some item =>
      match BloomFilter.check bloom_filter item with
      | Ok true => used_password
      | _ => unique_password
      end
  end.

Definition filter_after (bloom_filter : BloomFilter.t) (password : obj) : BloomFilter.t :=
  match valid_password password with
  | None => bloom_filter
  | Some item =>
      match BloomFilter.check bloom_filter item with
      | Ok true => bloom_filter
      | _ => (BloomFilter.add bloom_filter item).2
      end
  end.

(** ** [compare_methods.py]: class [HyperLogLog] *)

Module HyperLogLog.

Record t := mk {
  b : Z;
  m : Z;
  buckets : list Z
}.

Definition with_buckets (self : t) (bs : list Z) : t :=
  {| b := b self; m := m self; buckets := bs |}.

(** [1 << b] refuses a negative [b]; [[0] * self.m] is the list of [m]
    zeros, whatever its length. *)
Definition __init__ (b : Z) : result t :=
  m ← lshift 1 b;
  Ok {| b := b; m := m; buckets := replicate (Z.to_nat m) 0 |}.

Definition _hash (value : string) : result Z :=
  int16 (MD5.hexdigest (encode value)).

Definition _rho (w : Z) : Z :=
  (bit_length w - len (lstrip (bin w) "-0b")) + 1.

Definition add (self : t) (value : string) : result unit * t :=
  match _hash value with
  | Raise e => (Raise e, self)
  | Ok x =>
      let j := Z.land x (m self - 1) in
      match rshift x (b self) with
      | Raise e => (Raise e, self)
      | Ok w =>
          match getitem (buckets self) j with
          | Raise e => (Raise e, self)
          | Ok old =>
              match setitem (buckets self) j (Z.max old (_rho w)) with
              | Raise e => (Raise e, self)
              | Ok bs => (Ok tt, with_buckets self bs)
              end
          end
      end
  end.

(** The second statement of [count]: [E] from the bucket count and [Z]. *)
Definition E (m : Z) (Zsum : num) : result num :=
  t1 ← div (Float 1.079) (Int m);
  t2 ← Py.add (Int 1) t1;
  t3 ← div (Float 0.7213) t2;
  t4 ← mul t3 (Int (m ^ 2));
  div t4 Zsum.

Definition count (self : t) : result num :=
  Zsum ← sum ((fun bucket => pow2 (- bucket)) <$> buckets self);
  E (m self) Zsum.

(** The estimator after [add] was called on each of [values] in turn. *)
Definition add_all (self : t) (values : list string) : t :=
  foldl (fun h value => (add h value).2) self values.

(** What [__init__] establishes. *)
Definition wf (self : t) : Prop :=
  0 <= b self /\ m self = 2 ^ b self /\ Z.of_nat (length (buckets self)) = m self.

Definition binary (bucket : Z) : Prop := bucket = 0 \/ bucket = 1.

(** The running value of [Z] once [z] buckets at 0 and [t] buckets at 1 have
    been summed: the int [z] as long as [t = 0], the float [z + t/2] after. *)
Definition partial_sum (z t : nat) : num :=
  match t with
  | O => Int (Z.of_nat z)
  | _ => Float (SF2Prim (binary_normalize prec emax
                           (2 * Z.of_nat z + Z.of_nat t) (-1) false))
  end.

(** [count] returns a float between [lo] and [hi]. *)
Definition count_within (lo hi : float) (self : t) : bool :=
  match count self with
  | Ok (Float e) => PrimFloat.leb lo e && PrimFloat.leb e hi
  | _ => false
  end.

(** The rank as the specification words it: one plus the number of leading
    zero bits of [w] within its field of [W - b] bits, and [W - b + 1] when
    [w] is zero. *)
Fixpoint leading_zeros (width : nat) (w : Z) : Z :=
  match width with
  | O => 0
  | S n => if Z.testbit w (Z.of_nat n) then 0 else 1 + leading_zeros n w
  end.

Definition rank_spec (W b w : Z) : Z :=
  if decide (w = 0) then W - b + 1
  else 1 + leading_zeros (Z.to_nat (W - b)) w.

(** The linear-counting value of the specification, [m2 * ln(m2 / V)]. *)
Definition linear_counting (m2 V : Z) : R :=
  (IZR m2 * ln (IZR m2 / IZR V))%R.

(** The number [V] of buckets still at zero. *)
Definition zero_buckets (self : t) : Z :=
  Z.of_nat (length (filter (fun bucket => bucket = 0) (buckets self))).

End HyperLogLog.

(** The [for] loop of [count_unique_hyperloglog]: it ends at the first
    [add] that raises. *)
Fixpoint add_each (hll : HyperLogLog.t) (ip_addresses : list string)
    : result unit * HyperLogLog.t :=
  match ip_addresses with
  | [] => (Ok tt, hll)
  | ip :: rest =>
      match HyperLogLog.add hll ip with
      | (Raise e, hll) => (Raise e, hll)
      | (Ok _, hll) => add_each hll rest
      end
  end.

Definition count_unique_hyperloglog (ip_addresses : list string) (b : Z) : result num :=
  hll ← HyperLogLog.__init__ b;
  match add_each hll ip_addresses with
  | (Raise e, _) => Raise e
  | (Ok _, hll) => HyperLogLog.count hll
  end.

(** [count_unique_exact(ip_addresses)]: [len(set(ip_addresses))]. *)
Definition count_unique_exact (ip_addresses : list string) : Z :=
  Z.of_nat (size (list_to_set ip_addresses : gset string)).

(** ** [compare_methods.py]: [load_log_file]

    The text of a log line is the list of its characters (code points); the
    file is the list of the lines iterating over it yields.  [digit] is the
    class [\d] of the regular expression engine, the decimal digits of
    Unicode: a table of the runtime, taken as a parameter. *)

(** The regular expressions [ip_pattern] is made of. *)
Inductive re :=
| Digit
| Lit (c : Z)
| Seq (r1 r2 : re)
| Rep (r : re) (lo hi : nat).

(** [(?:\d{1,3}\.){3}\d{1,3}] *)
Definition ip_pattern : re :=
  Seq (Rep (Seq (Rep Digit 1 3) (Lit 46)) 3 3) (Rep Digit 1 3).

Section LogFile.
Variable digit : Z -> bool.

(** A greedy bounded repetition of [body]: one more round first, and only
    if everything after it fails, and [lo] rounds are done, go on without. *)
Fixpoint rep (body : list Z -> (list Z -> option (list Z)) -> option (list Z))
    (hi lo : nat) (s : list Z) (k : list Z -> option (list Z)) : option (list Z) :=
  match hi with
  | O => if decide (lo = 0)%nat then k s else None
  | S hi' =>
      match body s (fun s' => rep body hi' (pred lo) s' k) with
      | Some x => Some x
      | None => if decide (lo = 0)%nat then k s else None
      end
  end.

(** Matching [r] at the start of [s] by backtracking; [k] decides on what
    is left, and the first success is the answer. *)
Fixpoint run (r : re) (s : list Z) (k : list Z -> option (list Z)) : option (list Z) :=
  match r with
  | Digit => match s with
             | c :: s' => if digit c then k s' else None
             | [] => None
             end
  | Lit a => match s with
             | c :: s' => if Z.eqb c a then k s' else None
             | [] => None
             end
  | Seq r1 r2 => run r1 s (fun s' => run r2 s' k)
  | Rep r lo hi => rep (run r) hi lo s k
  end.

(** [pattern.search(line)] followed by [.group()]: the match at the leftmost
    position that has one. *)
Fixpoint search (r : re) (line : list Z) : option (list Z) :=
  match run r line Some with
  | Some rest => Some (take (length line - length rest) line)
  | None => match line with
            | [] => None
            | _ :: line' => search r line'
            end
  end.

Fixpoint load_loop (lines : list (list Z)) (ip_addresses : list (list Z))
    : list (list Z) :=
  match lines with
  | [] => ip_addresses
  | line :: rest =>
      match search ip_pattern line with
      | Some ip => load_loop rest (ip_addresses ++ [ip])
      | None => load_loop rest ip_addresses
      end
  end.

Definition load_log_file (lines : list (list Z)) : list (list Z) :=
  load_loop lines [].

(** The texts a regular expression stands for. *)
Inductive matches : re -> list Z -> Prop :=
| matches_digit c : digit c = true -> matches Digit [c]
| matches_lit a : matches (Lit a) [a]
| matches_seq r1 r2 s1 s2 :
    matches r1 s1 -> matches r2 s2 -> matches (Seq r1 r2) (s1 ++ s2)
| matches_rep_end r hi : matches (Rep r 0 hi) []
| matches_rep_more r lo hi s1 s2 :
    matches r s1 -> matches (Rep r (pred lo) hi) s2 ->
    matches (Rep r lo (S hi)) (s1 ++ s2).

(** One to three digits. *)
Definition digit_group (s : list Z) : Prop :=
  (1 <= length s <= 3)%nat /\ Forall (fun c => digit c = true) s.

(** Four digit groups with dots between them. *)
Definition dotted_quad (ip : list Z) : Prop :=
  exists a b c d,
    ip = a ++ [46] ++ b ++ [46] ++ c ++ [46] ++ d /\
    digit_group a /\ digit_group b /\ digit_group c /\ digit_group d.

End LogFile.

(** The digits of ASCII. *)
Definition ascii_digit (c : Z) : bool := (48 <=? c) && (c <=? 57).

(** The characters of a text of ASCII. *)
Definition chars (s : string) : list Z := encode s.

(** ** Notions used to state further properties *)

(** The positions of the bit array that [add] and [check] visit for [item]
    on a filter of positive size. *)
Definition probes (self : BloomFilter.t) (item : string) : list nat :=
  (fun i => Z.to_nat (Murmur3.hash item i `mod` BloomFilter.size self))
    <$> range (BloomFilter.num_hashes self).

(** The bit array with every position of [ks] set. *)
Definition set_bits (ks : list nat) (bits : list bool) : list bool :=
  foldl (fun l k => <[k := true]> l) bits ks.

(** The number of set bits. *)
Definition popcount (bits : list bool) : nat :=
  length (filter (fun bit => bit = true) bits).

(** The integer [_hash] returns for [value]. *)
Definition hash_of (value : string) : Z :=
  match HyperLogLog._hash value with
  | Ok x => x
  | Raise _ => 0
  end.

(** The bucket [add] selects for [value]. *)
Definition bucket_of (self : HyperLogLog.t) (value : string) : nat :=
  Z.to_nat (Z.land (hash_of value) (HyperLogLog.m self - 1)).

(** The rank [add] offers to that bucket. *)
Definition rank_of (self : HyperLogLog.t) (value : string) : Z :=
  HyperLogLog._rho (Z.shiftr (hash_of value) (HyperLogLog.b self)).

(** The estimator one [add] leaves. *)
Definition step (self : HyperLogLog.t) (value : string) : HyperLogLog.t :=
  (HyperLogLog.add self value).2.

(** The bucket array once bucket [j] has been offered the rank [r]. *)
Definition bump (j : nat) (r : Z) (bs : list Z) : list Z :=
  <[j := Z.max (default 0 (bs !! j)) r]> bs.

(** The float [k / 2]. *)
Definition half (k : Z) : float :=
  SF2Prim (binary_normalize prec emax k (-1) false).

#[global] Instance spec_float_eq_dec : EqDecision spec_float.
Proof. solve_decision. Defined.

(** Two floats with the same sign, mantissa and exponent. *)
Definition same_float (x y : float) : bool :=
  bool_decide (Prim2SF x = Prim2SF y).

(** Adding the int [1] to [k / 2] gives [(k + 2) / 2], and adding the float
    [0.5] gives [(k + 1) / 2]. *)
Definition half_steps (k : Z) : bool :=
  match Py.add (Float (half k)) (Int 1), Py.add (Float (half k)) (Float 0.5) with
  | Ok (Float x), Ok (Float y) => same_float x (half (k + 2)) && same_float y (half (k + 1))
  | _, _ => false
  end.

(** Adding the float [0.5] to the int [z] gives [(2 z + 1) / 2]. *)
Definition int_step (z : Z) : bool :=
  match Py.add (Int z) (Float 0.5) with
  | Ok (Float x) => same_float x (half (2 * z + 1))
  | _ => false
  end.

(** With 1024 buckets, [t] of them at 1 and the others at 0, [E] is a float
    between [lo] and [hi]. *)
Definition E_1024_within (lo hi : float) (t : nat) : bool :=
  match HyperLogLog.E 1024 (HyperLogLog.partial_sum (1024 - t) t) with
  | Ok (Float e) => PrimFloat.leb lo e && PrimFloat.leb e hi
  | _ => false
  end.

(** The number of buckets that are not zero. *)
Definition nonzero_buckets (self : HyperLogLog.t) : nat :=
  length (filter (fun bucket => bucket <> 0) (HyperLogLog.buckets self)).

(** * Properties *)

(** ** Known answers of the hash libraries *)

Example murmur3_known_answers :
  Murmur3.hash "" 0 = 0 /\
  Murmur3.hash "foo" 0 = -156908512 /\
  Murmur3.hash32 (encode "") 1 = 0x514E28B7 /\
  Murmur3.hash32 (encode "test") 0 = 0xba6bd213 /\
  Murmur3.hash32 (encode "Hello, world!") 1234 = 0xfaf6cdb3 /\
  Murmur3.hash32 (encode "The quick brown fox jumps over the lazy dog") 0x9747b28c
    = 0x2FA826CD.
Proof. repeat split; vm_compute; reflexivity. Qed.

Example md5_known_answers :
  MD5.hexdigest (encode "") = "d41d8cd98f00b204e9800998ecf8427e" /\
  MD5.hexdigest (encode "a") = "0cc175b9c0f1b6a831c399e269772661" /\
  MD5.hexdigest (encode "abc") = "900150983cd24fb0d6963f7d28e17f72" /\
  MD5.hexdigest (encode "message digest") = "f96b697d7cb7938d525a2f31aaf161d0" /\
  MD5.hexdigest
    (encode "12345678901234567890123456789012345678901234567890123456789012345678901234567890")
    = "57edf4a22be3c955ac49da2e2107b67a".
Proof. repeat split; vm_compute; reflexivity. Qed.

(** ** Sequences and results *)

(** Settle a goal about a natural number [n] known to be below [k] by
    running [tac] on each of its [k] values. *)
Tactic Notation "by_cases_below" integer(k) ident(n) "using" tactic3(tac) :=
  do k (destruct n as [|n]; [tac|]); try (exfalso; lia).

Lemma index_lt {A} (l : list A) (i : Z) (k : nat) :
  index l i = Ok k -> (k < length l)%nat.
Proof.
  unfold index. repeat case_decide; intros [= <-]; lia.
Qed.

Lemma index_same_length {A B} (l : list A) (l' : list B) (i : Z) :
  length l = length l' -> index l i = index l' i.
Proof. unfold index. intros ->. reflexivity. Qed.

Lemma index_in_range {A} (l : list A) (i : Z) :
  0 <= i < Z.of_nat (length l) -> index l i = Ok (Z.to_nat i).
Proof. intros Hi. unfold index. rewrite decide_True by done. reflexivity. Qed.

Lemma getitem_in_range {A} (l : list A) (i : Z) :
  0 <= i < Z.of_nat (length l) -> exists x, getitem l i = Ok x /\ l !! Z.to_nat i = Some x.
Proof.
  intros Hi. unfold getitem. rewrite index_in_range by done.
  destruct (lookup_lt_is_Some_2 l (Z.to_nat i)) as [x Hx]; [lia|].
  rewrite Hx. eauto.
Qed.

(** ** The Bloom filter *)

Module BloomFilterFacts.
Import BloomFilter.

Lemma extends_refl self : extends self self.
Proof. repeat split; auto. Qed.

Lemma extends_trans a b c : extends a b -> extends b c -> extends a c.
Proof.
  intros (? & ? & ? & Hab) (? & ? & ? & Hbc).
  repeat split; try congruence. auto.
Qed.

Lemma extends_wf self self' : wf self -> extends self self' -> wf self'.
Proof.
  intros [Hpos Hlen] (Hs & _ & Hl & _). split; rewrite Hs; [done|].
  rewrite Hl. done.
Qed.

Lemma extends_hashes self self' item :
  extends self self' -> _hashes self' item = _hashes self item.
Proof. intros (Hs & Hk & _). unfold _hashes. rewrite Hs, Hk. reflexivity. Qed.

Lemma with_bits_id self : with_bits self (bit_array self) = self.
Proof. destruct self; reflexivity. Qed.

Lemma setitem_extends self h bits :
  setitem (bit_array self) h true = Ok bits -> extends self (with_bits self bits).
Proof.
  unfold setitem. destruct (index _ h) as [k|] eqn:Hk; intros [= <-].
  repeat split; simpl.
  - apply length_insert.
  - intros i Hi. destruct (decide (k = i)) as [->|Hne].
    + apply list_lookup_insert_eq. eauto using lookup_lt_Some.
    + rewrite list_lookup_insert_ne; done.
Qed.

Lemma setitem_sets self h bits k :
  setitem (bit_array self) h true = Ok bits ->
  index (bit_array self) h = Ok k -> bits !! k = Some true.
Proof.
  unfold setitem. intros Hs Hk. rewrite Hk in Hs. injection Hs as <-.
  apply list_lookup_insert_eq. eauto using index_lt.
Qed.

Lemma add_loop_extends hashes : forall self, extends self (add_loop self hashes).2.
Proof.
  induction hashes as [|[h|e] rest IH]; intros self; simpl;
    try apply extends_refl.
  destruct (setitem _ h true) as [bits|] eqn:Hset; simpl; [|apply extends_refl].
  eapply extends_trans; [eapply setitem_extends; eassumption | apply IH].
Qed.

Lemma add_extends self item : extends self (add self item).2.
Proof. apply add_loop_extends. Qed.

Lemma run_extends calls : forall self, extends self (run self calls).
Proof.
  unfold run. induction calls as [|c calls IH]; intros self; simpl.
  - apply extends_refl.
  - eapply extends_trans; [|apply IH].
    destruct c; simpl; [apply add_extends | apply extends_refl].
Qed.

(** Replaying a loop on a filter that already holds every bit the loop
    set changes nothing and ends the same way. *)
Lemma add_loop_absorb hashes : forall self other,
  extends (add_loop self hashes).2 other ->
  add_loop other hashes = ((add_loop self hashes).1, other).
Proof.
  induction hashes as [|[h|e] rest IH]; intros self other Hext; simpl in *;
    try reflexivity.
  assert (Hlen : length (bit_array self) = length (bit_array other)).
  { destruct (add_loop_extends (Ok h :: rest) self) as (_ & _ & Hl1 & _).
    destruct Hext as (_ & _ & Hl2 & _). simpl in Hl1.
    destruct (setitem (bit_array self) h true); simpl in *; congruence. }
  unfold setitem in *. rewrite <- (index_same_length _ _ h Hlen).
  destruct (index (bit_array self) h) as [k|e] eqn:Hk; [|reflexivity].
  assert (Hbit : bit_array other !! k = Some true).
  { destruct Hext as (_ & _ & _ & Hsub). apply Hsub.
    destruct (add_loop_extends rest (with_bits self (<[k:=true]> (bit_array self))))
      as (_ & _ & _ & Hsub'). apply Hsub'. simpl.
    apply list_lookup_insert_eq. eauto using index_lt. }
  rewrite (list_insert_id _ _ _ Hbit), with_bits_id. eapply IH, Hext.
Qed.

(** After a loop that ran to its end, every probed bit is set. *)
Lemma all_set_after_add_loop hashes : forall self other,
  (add_loop self hashes).1 = Ok tt ->
  extends (add_loop self hashes).2 other ->
  all_set other hashes = Ok true.
Proof.
  induction hashes as [|[h|e] rest IH]; intros self other Hok Hext; simpl in *;
    try done.
  assert (Hlen : length (bit_array self) = length (bit_array other)).
  { destruct (add_loop_extends (Ok h :: rest) self) as (_ & _ & Hl1 & _).
    destruct Hext as (_ & _ & Hl2 & _). simpl in Hl1.
    destruct (setitem (bit_array self) h true); simpl in *; congruence. }
  unfold getitem, setitem in *. rewrite <- (index_same_length _ _ h Hlen).
  destruct (index (bit_array self) h) as [k|e] eqn:Hk; [|done].
  assert (Hbit : bit_array other !! k = Some true).
  { destruct Hext as (_ & _ & _ & Hsub). apply Hsub.
    destruct (add_loop_extends rest (with_bits self (<[k:=true]> (bit_array self))))
      as (_ & _ & _ & Hsub'). apply Hsub'. simpl.
    apply list_lookup_insert_eq. eauto using index_lt. }
  rewrite Hbit. eapply IH; eassumption.
Qed.

Lemma hashes_in_range self item :
  0 < size self -> Forall (in_range (size self)) (_hashes self item).
Proof.
  intros Hpos. unfold _hashes. apply Forall_fmap, Forall_forall.
  intros i _. simpl. exists (Murmur3.hash item i `mod` size self).
  unfold mod_. rewrite decide_False by lia. split; [done|].
  apply Z.mod_pos_bound. done.
Qed.

Lemma add_loop_in_range hashes : forall self,
  Forall (in_range (Z.of_nat (length (bit_array self)))) hashes ->
  (add_loop self hashes).1 = Ok tt.
Proof.
  induction hashes as [|r rest IH]; intros self Hall; simpl; [done|].
  apply Forall_cons in Hall as [(h & -> & Hh) Hall].
  unfold setitem. rewrite index_in_range by done. apply IH. simpl.
  rewrite length_insert. done.
Qed.

Lemma all_set_in_range hashes self :
  Forall (in_range (Z.of_nat (length (bit_array self)))) hashes ->
  exists r, all_set self hashes = Ok r.
Proof.
  induction hashes as [|r rest IH]; intros Hall; simpl; [eauto|].
  apply Forall_cons in Hall as [(h & -> & Hh) Hall].
  destruct (getitem_in_range (bit_array self) h Hh) as (x & -> & _).
  destruct x; eauto.
Qed.

Lemma filter_init_wf size k self :
  0 < size -> __init__ size k = Ok self ->
  wf self /\ BloomFilter.size self = size /\ num_hashes self = k.
Proof.
  intros Hpos. unfold __init__. rewrite decide_False by lia. intros [= <-].
  unfold wf. simpl. rewrite length_replicate. lia.
Qed.

Lemma add_ok self item : wf self -> (add self item).1 = Ok tt.
Proof.
  intros [Hpos Hlen]. apply add_loop_in_range. rewrite Hlen.
  apply hashes_in_range. done.
Qed.

Lemma check_ok self item : wf self -> exists r, check self item = Ok r.
Proof.
  intros [Hpos Hlen]. apply all_set_in_range. rewrite Hlen.
  apply hashes_in_range. done.
Qed.

End BloomFilterFacts.

(** ** The estimator's rank function *)

Lemma pos_digits_shape p : forall acc,
  exists rest, pos_digits p acc = String "1" rest /\
    String.length (pos_digits p acc) = (Pos.to_nat (Pos.size p) + String.length acc)%nat.
Proof.
  induction p as [q IH|q IH|]; intros acc; simpl.
  - destruct (IH (String "1" acc)) as (rest & Hrest & Hlen).
    exists rest. split; [done|]. rewrite Hlen. simpl. lia.
  - destruct (IH (String "0" acc)) as (rest & Hrest & Hlen).
    exists rest. split; [done|]. rewrite Hlen. simpl. lia.
  - eexists. split; reflexivity.
Qed.

Lemma lstrip_digits p :
  len (lstrip (pos_digits p "") "-0b") = Z.pos (Pos.size p).
Proof.
  destruct (pos_digits_shape p "") as (rest & Hrest & Hlen).
  unfold len. rewrite Hrest in *. simpl lstrip. rewrite Hlen. simpl. lia.
Qed.

(** Stripping the characters ['-'], ['0'] and ['b'] from the left of
    [bin(w)] removes the sign and the prefix and then stops at the leading
    [1], so the two lengths subtracted in [_rho] are always equal. *)
Lemma rho_is_one (w : Z) : HyperLogLog._rho w = 1.
Proof.
  unfold HyperLogLog._rho. destruct w as [|p|p]; [reflexivity| |].
  - change (lstrip (bin (Z.pos p)) "-0b") with (lstrip (pos_digits p "") "-0b").
    rewrite lstrip_digits. simpl. lia.
  - change (lstrip (bin (Z.neg p)) "-0b") with (lstrip (pos_digits p "") "-0b").
    rewrite lstrip_digits. simpl. lia.
Qed.

(** ** The hash values *)

Lemma le_bytes_length k : forall n, length (MD5.le_bytes k n) = k.
Proof. induction k as [|k IH]; intros n; simpl; [done|]. by rewrite IH. Qed.

Lemma le_bytes_byte k : forall n, Forall byte (MD5.le_bytes k n).
Proof.
  induction k as [|k IH]; intros n; simpl; constructor; [|apply IH].
  unfold byte. change 255 with (Z.ones 8). rewrite Z.land_ones by lia.
  apply Z.mod_pos_bound. lia.
Qed.

Lemma digest_length data : length (MD5.digest data) = 16%nat.
Proof.
  unfold MD5.digest. destruct (MD5.chunks _ _ _) as [[[a b] c] d].
  rewrite !length_app, !le_bytes_length. reflexivity.
Qed.

Lemma digest_byte data : Forall byte (MD5.digest data).
Proof.
  unfold MD5.digest. destruct (MD5.chunks _ _ _) as [[[a b] c] d].
  repeat apply Forall_app_2; apply le_bytes_byte.
Qed.

Lemma hex_value_digit d :
  0 <= d < 16 -> hex_value (MD5.hex_digit d) = Some d.
Proof.
  intros Hd. rewrite <- (Z2Nat.id d) by lia.
  assert (Hlt : (Z.to_nat d < 16)%nat) by lia.
  revert Hlt. generalize (Z.to_nat d). intros n Hlt.
  by_cases_below 16 n using (vm_compute; reflexivity).
Qed.

Lemma int16_from_hex bytes : forall acc,
  Forall byte bytes -> 0 <= acc ->
  exists x, int16_from acc (MD5.hex bytes) = Ok x /\
    acc * 256 ^ Z.of_nat (length bytes) <= x < (acc + 1) * 256 ^ Z.of_nat (length bytes).
Proof.
  induction bytes as [|b rest IH]; intros acc Hall Hacc.
  - exists acc. simpl. split; [done|lia].
  - apply Forall_cons in Hall as [Hb Hall]. unfold byte in Hb.
    cbn [MD5.hex int16_from].
    rewrite (hex_value_digit (b / 16))
      by (split; [apply Z.div_pos | apply Z.div_lt_upper_bound]; lia).
    rewrite (hex_value_digit (b `mod` 16)) by (apply Z.mod_pos_bound; lia).
    replace (16 * (16 * acc + b / 16) + b `mod` 16) with (256 * acc + b)
      by (pose proof (Z.div_mod b 16); lia).
    destruct (IH (256 * acc + b) Hall) as (x & Hx & Hlo & Hhi); [lia|].
    exists x. split; [done|].
    rewrite length_cons, Nat2Z.inj_succ, Z.pow_succ_r by lia.
    assert (0 < 256 ^ Z.of_nat (length rest)) by (apply Z.pow_pos_nonneg; lia).
    nia.
Qed.

(** [HyperLogLog._hash] never raises and returns a 128-bit natural number. *)
Lemma hash_value_range value :
  exists x, HyperLogLog._hash value = Ok x /\ 0 <= x < 2 ^ 128.
Proof.
  unfold HyperLogLog._hash, MD5.hexdigest.
  pose proof (digest_length (encode value)) as Hlen.
  pose proof (digest_byte (encode value)) as Hbyte.
  destruct (int16_from_hex _ 0 Hbyte) as (x & Hx & Hlo & Hhi); [lia|].
  rewrite Hlen in Hlo, Hhi. exists x. split; [|split; [lia|]].
  - destruct (MD5.digest (encode value)) as [|b rest]; [discriminate Hlen|].
    exact Hx.
  - change (2 ^ 128) with ((0 + 1) * 256 ^ Z.of_nat 16). exact Hhi.
Qed.

Lemma lxor_below n a b :
  0 <= n -> 0 <= a < 2 ^ n -> 0 <= b < 2 ^ n -> 0 <= Z.lxor a b < 2 ^ n.
Proof.
  intros Hn Ha Hb. split; [apply Z.lxor_nonneg; lia|].
  destruct (decide (n = 0)) as [->|Hn0].
  { replace a with 0 by (simpl in Ha; lia). replace b with 0 by (simpl in Hb; lia).
    reflexivity. }
  destruct (decide (Z.lxor a b = 0)) as [->|Hne]; [lia|].
  assert (0 < Z.lxor a b) by (pose proof (proj2 (Z.lxor_nonneg a b)); lia).
  apply Z.log2_lt_pow2; [done|].
  pose proof (Z.log2_lxor a b). 
  assert (Z.log2 a < n) by (destruct (decide (a = 0)) as [->|]; [simpl; lia | apply Z.log2_lt_pow2; lia]).
  assert (Z.log2 b < n) by (destruct (decide (b = 0)) as [->|]; [simpl; lia | apply Z.log2_lt_pow2; lia]).
  lia.
Qed.

Lemma mask32_range x : 0 <= Murmur3.mask32 x < 2 ^ 32.
Proof.
  unfold Murmur3.mask32. change 4294967295 with (Z.ones 32).
  rewrite Z.land_ones by lia. apply Z.mod_pos_bound. lia.
Qed.

Lemma shiftr_below x k : 0 <= k -> 0 <= x < 2 ^ 32 -> 0 <= Z.shiftr x k < 2 ^ 32.
Proof.
  intros Hk Hx. rewrite Z.shiftr_div_pow2 by done.
  assert (0 < 2 ^ k) by (apply Z.pow_pos_nonneg; lia).
  split; [apply Z.div_pos; lia|].
  apply Z.div_lt_upper_bound; [done|]. nia.
Qed.

(** [mmh3.hash] returns a signed 32-bit int. *)
Lemma murmur3_range key seed : - 2 ^ 31 <= Murmur3.hash key seed < 2 ^ 31.
Proof.
  unfold Murmur3.hash, Murmur3.hash32.
  generalize (Z.lxor (Murmur3.blocks (encode key) (Murmur3.mask32 seed))
                     (Murmur3.mask32 (Z.of_nat (length (encode key))))).
  intros h0. unfold Murmur3.fmix32.
  set (h1 := Murmur3.mask32 _).
  assert (H1 : 0 <= h1 < 2 ^ 32) by apply mask32_range.
  pose proof (lxor_below 32 h1 (Z.shiftr h1 16) ltac:(lia) H1
                (shiftr_below h1 16 ltac:(lia) H1)) as H2.
  unfold Murmur3.signed32. case_decide; lia.
Qed.

(** ** The estimator *)

Module HyperLogLogFacts.
Import HyperLogLog.

Lemma with_buckets_id self : with_buckets self (buckets self) = self.
Proof. destruct self; reflexivity. Qed.

Lemma init_ok b0 :
  0 <= b0 ->
  __init__ b0 = Ok {| b := b0; m := 2 ^ b0; buckets := replicate (Z.to_nat (2 ^ b0)) 0 |}.
Proof.
  intros Hb. unfold __init__, lshift. rewrite decide_False by lia. simpl.
  rewrite Z.shiftl_1_l. reflexivity.
Qed.

Lemma estimator_init_wf b0 self : 0 <= b0 -> __init__ b0 = Ok self -> wf self.
Proof.
  intros Hb. rewrite init_ok by done. intros [= <-]. unfold wf. simpl.
  rewrite length_replicate. assert (0 < 2 ^ b0) by (apply Z.pow_pos_nonneg; lia). lia.
Qed.

(** One [add] either raises and leaves the object alone, or replaces one
    bucket by the maximum of its value and a rank. *)
Lemma add_shape self value :
  (exists e, add self value = (Raise e, self)) \/
  (exists k old w, buckets self !! k = Some old /\
     add self value =
       (Ok tt, with_buckets self (<[k := Z.max old (_rho w)]> (buckets self)))).
Proof.
  unfold add. destruct (_hash value) as [x|e]; [|eauto].
  destruct (rshift x (b self)) as [w|e]; [|eauto].
  unfold getitem, setitem.
  destruct (index (buckets self) _) as [k|e]; [|eauto].
  destruct (buckets self !! k) as [old|] eqn:Hk; [|eauto].
  right. eauto.
Qed.

Lemma add_wf self value : wf self -> (add self value).1 = Ok tt /\ wf (add self value).2.
Proof.
  intros (Hb & Hm & Hlen). unfold add.
  destruct (hash_value_range value) as (x & -> & Hx).
  unfold rshift. rewrite decide_False by lia.
  assert (Hj : 0 <= Z.land x (m self - 1) < Z.of_nat (length (buckets self))).
  { rewrite Hlen, Hm. replace (2 ^ b self - 1) with (Z.ones (b self))
      by (rewrite Z.ones_equiv; lia).
    rewrite Z.land_ones by done. apply Z.mod_pos_bound, Z.pow_pos_nonneg; lia. }
  destruct (getitem_in_range _ _ Hj) as (old & -> & _).
  unfold setitem. rewrite index_in_range by done. simpl.
  split; [done|]. unfold wf. simpl. rewrite length_insert. done.
Qed.

Lemma add_all_wf values : forall self, wf self -> wf (add_all self values).
Proof.
  unfold add_all. induction values as [|v values IH]; intros self Hwf; simpl; [done|].
  apply IH, add_wf, Hwf.
Qed.

Lemma add_monotone self value j v :
  buckets self !! j = Some v ->
  exists v', buckets (add self value).2 !! j = Some v' /\ v <= v'.
Proof.
  intros Hj. destruct (add_shape self value) as [(e & ->)|(k & old & w & Hk & ->)]; simpl.
  - exists v. split; [done|lia].
  - destruct (decide (k = j)) as [->|Hne].
    + rewrite list_lookup_insert_eq by eauto using lookup_lt_Some.
      eexists. split; [done|]. simplify_eq. lia.
    + rewrite list_lookup_insert_ne by done. exists v. split; [done|lia].
Qed.

Lemma add_idempotent self value :
  add (add self value).2 value = add self value.
Proof.
  unfold add. destruct (_hash value) as [x|e]; [|done].
  destruct (rshift x (b self)) as [w|e] eqn:Hw; [|cbn; by rewrite Hw].
  unfold getitem, setitem.
  destruct (index (buckets self) _) as [k|e] eqn:Hidx;
    [|cbn [snd b m buckets]; by rewrite Hw, Hidx].
  destruct (buckets self !! k) as [old|] eqn:Hk;
    [|cbn [snd b m buckets]; by rewrite Hw, Hidx, Hk].
  cbn [snd b m buckets with_buckets]. rewrite Hw.
  rewrite (index_same_length _ (buckets self)) by apply length_insert.
  rewrite Hidx, list_lookup_insert_eq by eauto using lookup_lt_Some.
  rewrite list_insert_insert_eq. unfold with_buckets. cbn [b m buckets].
  rewrite <- Z.max_assoc, Z.max_id. reflexivity.
Qed.

Lemma add_binary self value :
  Forall binary (buckets self) -> Forall binary (buckets (add self value).2).
Proof.
  intros Hall. destruct (add_shape self value) as [(e & ->)|(k & old & w & Hk & ->)];
    simpl; [done|].
  apply Forall_insert; [done|]. rewrite rho_is_one.
  destruct (Forall_lookup_1 _ _ _ _ Hall Hk) as [->| ->]; right; reflexivity.
Qed.

Lemma add_all_binary values : forall self,
  Forall binary (buckets self) -> Forall binary (buckets (add_all self values)).
Proof.
  unfold add_all. induction values as [|v values IH]; intros self Hall; simpl; [done|].
  apply IH, add_binary, Hall.
Qed.

Lemma add_all_fields values : forall self,
  b (add_all self values) = b self /\ m (add_all self values) = m self /\
  length (buckets (add_all self values)) = length (buckets self).
Proof.
  unfold add_all. induction values as [|v values IH]; intros self; simpl; [done|].
  destruct (IH (add self v).2) as (-> & -> & ->).
  destruct (add_shape self v) as [(e & ->)|(k & old & w & Hk & ->)]; simpl; [done|].
  rewrite length_insert. done.
Qed.

Lemma sum_from_ones n : forall acc,
  sum_from (Int acc) (replicate n (Int 1)) = Ok (Int (acc + Z.of_nat n)).
Proof.
  induction n as [|n IH]; intros acc; simpl.
  - f_equal. f_equal. lia.
  - rewrite IH. f_equal. f_equal. lia.
Qed.

(** With every bucket at zero, [Z] is the int [m]: every term is the int
    [2 ** 0]. *)
Lemma count_fresh b0 :
  0 <= b0 ->
  count {| b := b0; m := 2 ^ b0; buckets := replicate (Z.to_nat (2 ^ b0)) 0 |}
  = E (2 ^ b0) (Int (2 ^ b0)).
Proof.
  intros Hb. unfold count, sum. simpl buckets. rewrite fmap_replicate.
  change (pow2 (- 0)) with (Int 1). rewrite sum_from_ones. simpl.
  assert (0 < 2 ^ b0) by (apply Z.pow_pos_nonneg; lia).
  rewrite Z2Nat.id by lia. reflexivity.
Qed.

Lemma add_each_wf values : forall self,
  wf self -> add_each self values = (Ok tt, add_all self values).
Proof.
  unfold add_all. induction values as [|v values IH]; intros self Hwf; simpl; [done|].
  destruct (add_wf self v Hwf) as [Hok Hwf'].
  destruct (add self v) as [o self']. simpl in *. subst o. apply IH, Hwf'.
Qed.

End HyperLogLogFacts.

(** * The properties of the specification *)

(** C1. No false negatives.  On a filter constructed with size [m > 0] and
    [k > 0] hash functions, whatever calls to [add] and [check] came
    [before], the call [add(s)] returns normally, and whatever calls come
    [after] it, [check(s)] returns [True]. *)
Theorem C1_no_false_negatives (m k : Z) (self0 : BloomFilter.t)
    (before after : list BloomFilter.call) (s : string) :
  0 < m -> 0 < k ->
  BloomFilter.__init__ m k = Ok self0 ->
  let added := BloomFilter.add (BloomFilter.run self0 before) s in
  added.1 = Ok tt /\
  BloomFilter.check (BloomFilter.run added.2 after) s = Ok true.
Proof.
  intros Hm Hk Hinit added.
  destruct (BloomFilterFacts.filter_init_wf m k self0 Hm Hinit) as (Hwf & _ & _).
  assert (Hwf' : BloomFilter.wf (BloomFilter.run self0 before))
    by eauto using BloomFilterFacts.extends_wf, BloomFilterFacts.run_extends.
  assert (Hok : added.1 = Ok tt) by apply BloomFilterFacts.add_ok, Hwf'.
  split; [exact Hok|].
  pose proof (BloomFilterFacts.run_extends after added.2) as Hext.
  unfold BloomFilter.check.
  rewrite (BloomFilterFacts.extends_hashes (BloomFilter.run self0 before)).
  - eapply BloomFilterFacts.all_set_after_add_loop; [exact Hok | exact Hext].
  - eapply BloomFilterFacts.extends_trans; [apply BloomFilterFacts.add_extends | exact Hext].
Qed.

Lemma C1_witness :
  let self0 := BloomFilter.mk 1000 3 (replicate 1000 false) in
  let before := [BloomFilter.Add "password123"; BloomFilter.Check "guest"] in
  let after := [BloomFilter.Add "qwerty123"; BloomFilter.Check "admin123"] in
  let added := BloomFilter.add (BloomFilter.run self0 before) "admin123" in
  added.1 = Ok tt /\
  BloomFilter.check (BloomFilter.run added.2 after) "admin123" = Ok true.
Proof.
  apply (C1_no_false_negatives 1000 3); [lia | lia | reflexivity].
Defined.

(** C7. Monotone state.  Across any sequence of [add] calls a bit of the
    filter's bit array that is set stays set, and every bucket of the
    estimator keeps a value at least as large as the one it had. *)
Theorem C7_monotone_state :
  (forall (self : BloomFilter.t) (items : list string) (i : nat),
     BloomFilter.bit_array self !! i = Some true ->
     BloomFilter.bit_array (BloomFilter.run self (BloomFilter.Add <$> items)) !! i
       = Some true) /\
  (forall (self : HyperLogLog.t) (values : list string) (j : nat) (v : Z),
     HyperLogLog.buckets self !! j = Some v ->
     exists v', HyperLogLog.buckets (HyperLogLog.add_all self values) !! j = Some v'
                /\ v <= v').
Proof.
  split.
  - intros self items i Hi.
    destruct (BloomFilterFacts.run_extends (BloomFilter.Add <$> items) self)
      as (_ & _ & _ & Hsub).
    apply Hsub, Hi.
  - intros self values. revert self. unfold HyperLogLog.add_all.
    induction values as [|value values IH]; intros self j v Hj; simpl.
    + exists v. split; [done|lia].
    + destruct (HyperLogLogFacts.add_monotone self value j v Hj) as (v1 & Hv1 & Hle).
      destruct (IH _ j v1 Hv1) as (v' & Hv' & Hle').
      exists v'. split; [done|lia].
Qed.

Lemma C7_witness :
  let self := (BloomFilter.add (BloomFilter.mk 1000 3 (replicate 1000 false)) "a").2 in
  let h := (HyperLogLog.add (HyperLogLog.mk 4 16 (replicate 16 0)) "a").2 in
  BloomFilter.bit_array self !! 850%nat = Some true /\
  BloomFilter.bit_array
    (BloomFilter.run self (BloomFilter.Add <$> ["b"; "c"])) !! 850%nat = Some true /\
  HyperLogLog.buckets h !! 1%nat = Some 1 /\
  exists v', HyperLogLog.buckets (HyperLogLog.add_all h ["b"; "c"]) !! 1%nat = Some v'
             /\ 1 <= v'.
Proof.
  intros self h.
  assert (Hbit : BloomFilter.bit_array self !! 850%nat = Some true) by reflexivity.
  assert (Hbucket : HyperLogLog.buckets h !! 1%nat = Some 1) by reflexivity.
  split; [exact Hbit|]. split.
  - exact (proj1 C7_monotone_state self ["b"; "c"] 850%nat Hbit).
  - split; [exact Hbucket|].
    exact (proj2 C7_monotone_state h ["b"; "c"] 1%nat 1 Hbucket).
Defined.

(** C8. Idempotence of [add].  From any state of either structure, a second
    [add(s)] right after the first ends as the first did and leaves the bit
    array, respectively the bucket array, exactly as the first left it. *)
Theorem C8_add_idempotent (bf : BloomFilter.t) (h : HyperLogLog.t) (s : string) :
  BloomFilter.add (BloomFilter.add bf s).2 s = BloomFilter.add bf s /\
  HyperLogLog.add (HyperLogLog.add h s).2 s = HyperLogLog.add h s.
Proof.
  split; [|apply HyperLogLogFacts.add_idempotent].
  unfold BloomFilter.add at 1.
  rewrite (BloomFilterFacts.extends_hashes bf) by apply BloomFilterFacts.add_extends.
  unfold BloomFilter.add.
  rewrite (BloomFilterFacts.add_loop_absorb _ bf) by apply BloomFilterFacts.extends_refl.
  destruct (BloomFilter.add_loop bf _); reflexivity.
Qed.

(** C9. Indices stay in range.  On a filter constructed with size [m > 0],
    in any state its calls led to, every index [_hashes] yields lies in
    [0, m) (the hash itself may be negative; the remainder of a division by
    a positive size is not), so neither [add] nor [check] raises. *)
Theorem C9_indices_in_range (m k : Z) (self0 : BloomFilter.t)
    (calls : list BloomFilter.call) (item : string) :
  0 < m ->
  BloomFilter.__init__ m k = Ok self0 ->
  let self := BloomFilter.run self0 calls in
  Forall (BloomFilter.in_range m) (BloomFilter._hashes self item) /\
  (BloomFilter.add self item).1 = Ok tt /\
  exists r, BloomFilter.check self item = Ok r.
Proof.
  intros Hm Hinit self.
  destruct (BloomFilterFacts.filter_init_wf m k self0 Hm Hinit) as (Hwf & Hsize & _).
  pose proof (BloomFilterFacts.run_extends calls self0) as Hext. fold self in Hext.
  assert (Hwf' : BloomFilter.wf self) by eauto using BloomFilterFacts.extends_wf.
  split; [|split].
  - destruct Hext as (Hs & _). rewrite <- Hsize, <- Hs.
    apply BloomFilterFacts.hashes_in_range, Hwf'.
  - apply BloomFilterFacts.add_ok, Hwf'.
  - apply BloomFilterFacts.check_ok, Hwf'.
Qed.

Lemma C9_witness :
  let self := BloomFilter.run (BloomFilter.mk 1000 3 (replicate 1000 false))
                [BloomFilter.Add "password123"; BloomFilter.Check "foo"] in
  Forall (BloomFilter.in_range 1000) (BloomFilter._hashes self "foo") /\
  (BloomFilter.add self "foo").1 = Ok tt /\
  exists r, BloomFilter.check self "foo" = Ok r.
Proof.
  apply (C9_indices_in_range 1000 3); [lia | reflexivity].
Defined.

(** C2. The rank function.  The specification asks for one plus the number
    of leading zero bits of [w] in its 128 - b bit field.  [_rho] returns 1
    for every [w]: on [HyperLogLog(10).add("a")] the hash is
    [0x0cc175b9c0f1b6a831c399e269772661], its remainder [w] has four leading
    zero bits in the 118-bit field, the rank asked for is 5, and [_rho]
    returns 1. *)
Theorem C2_rho_ignores_leading_zeros :
  (forall w, HyperLogLog._rho w = 1) /\
  exists x w,
    HyperLogLog._hash "a" = Ok x /\
    x = 0x0cc175b9c0f1b6a831c399e269772661 /\
    rshift x 10 = Ok w /\
    HyperLogLog.rank_spec 128 10 w = 5 /\
    HyperLogLog._rho w = 1 /\
    HyperLogLog.rank_spec 128 10 0 = 119 /\
    HyperLogLog._rho 0 = 1.
Proof.
  split; [apply rho_is_one|].
  eexists _, _. split; [vm_compute; reflexivity|].
  split; [reflexivity|]. split; [reflexivity|].
  repeat split; vm_compute; reflexivity.
Qed.

(** C3, as the code has it.  For [0 <= b <= 24] the constructor returns an
    estimator on which [count] never raises: with every bucket at zero the
    sum [Z] is the int [2^b], not zero, and the value returned is the raw
    estimate [E] for that [Z], a positive float (about [0.72 * 2^b] for
    large [b]), not 0. *)
Theorem C3_fresh_count (b : Z) :
  0 <= b <= 24 ->
  exists self e,
    HyperLogLog.__init__ b = Ok self /\
    sum ((fun bucket => pow2 (- bucket)) <$> HyperLogLog.buckets self) = Ok (Int (2 ^ b)) /\
    HyperLogLog.count self = HyperLogLog.E (2 ^ b) (Int (2 ^ b)) /\
    HyperLogLog.count self = Ok (Float e) /\
    PrimFloat.ltb 0 e = true.
Proof.
  intros Hb.
  assert (He : exists e, HyperLogLog.E (2 ^ b) (Int (2 ^ b)) = Ok (Float e)
                         /\ PrimFloat.ltb 0 e = true).
  { rewrite <- (Z2Nat.id b) by lia.
    assert (Hlt : (Z.to_nat b < 25)%nat) by lia.
    revert Hlt. generalize (Z.to_nat b). intros n Hlt.
    by_cases_below 25 n using (eexists; split; vm_compute; reflexivity). }
  destruct He as (e & He & Hpos).
  eexists _, e.
  split; [apply HyperLogLogFacts.init_ok; lia|].
  rewrite HyperLogLogFacts.count_fresh by lia.
  split; [|done].
  unfold sum. simpl HyperLogLog.buckets. rewrite fmap_replicate.
  change (pow2 (- 0)) with (Int 1). rewrite HyperLogLogFacts.sum_from_ones.
  assert (0 < 2 ^ b) by (apply Z.pow_pos_nonneg; lia).
  simpl. rewrite Z2Nat.id by lia. reflexivity.
Qed.

Lemma C3_witness :
  exists self e,
    HyperLogLog.__init__ 4 = Ok self /\
    sum ((fun bucket => pow2 (- bucket)) <$> HyperLogLog.buckets self) = Ok (Int (2 ^ 4)) /\
    HyperLogLog.count self = HyperLogLog.E (2 ^ 4) (Int (2 ^ 4)) /\
    HyperLogLog.count self = Ok (Float e) /\
    PrimFloat.ltb 0 e = true.
Proof.
  apply (C3_fresh_count 4). lia.
Defined.

(** C3 as stated fails: [HyperLogLog(4).count()] with no [add] before it
    returns 10.811686866912583, not 0. *)
Lemma C3_counterexample :
  exists self,
    HyperLogLog.__init__ 4 = Ok self /\
    HyperLogLog.count self = Ok (Float 10.811686866912583) /\
    count_unique_hyperloglog [] 4 = Ok (Float 10.811686866912583) /\
    PrimFloat.eqb 10.811686866912583 0 = false.
Proof.
  eexists. repeat split; vm_compute; reflexivity.
Qed.

Lemma partial_sum_step (z t : nat) :
  (z + t < 16)%nat ->
  Py.add (HyperLogLog.partial_sum z t) (pow2 (Z.opp 0))
    = Ok (HyperLogLog.partial_sum (S z) t) /\
  Py.add (HyperLogLog.partial_sum z t) (pow2 (Z.opp 1))
    = Ok (HyperLogLog.partial_sum z (S t)).
Proof.
  intros Hlt.
  by_cases_below 16 z
    using (by_cases_below 16 t using (split; vm_compute; reflexivity)).
Qed.

Lemma sum_from_binary bs : forall z t,
  Forall HyperLogLog.binary bs ->
  (z + t + length bs <= 16)%nat ->
  exists z' t', (z' + t' = z + t + length bs)%nat /\
    sum_from (HyperLogLog.partial_sum z t) ((fun bucket => pow2 (- bucket)) <$> bs)
      = Ok (HyperLogLog.partial_sum z' t').
Proof.
  induction bs as [|x bs IH]; intros z t Hall Hlen.
  - exists z, t. split; [simpl; lia | reflexivity].
  - apply Forall_cons in Hall as [Hx Hall]. simpl in Hlen.
    destruct (partial_sum_step z t ltac:(lia)) as [H0 H1].
    cbn [fmap list_fmap sum_from]. destruct Hx as [-> | ->].
    + rewrite H0. destruct (IH (S z) t Hall ltac:(lia)) as (z' & t' & Hsum & Heq).
      exists z', t'. split; [simpl; lia | exact Heq].
    + rewrite H1. destruct (IH z (S t) Hall ltac:(lia)) as (z' & t' & Hsum & Heq).
      exists z', t'. split; [simpl; lia | exact Heq].
Qed.

Lemma E_16_binary (z t : nat) :
  (z + t = 16)%nat ->
  exists e, HyperLogLog.E 16 (HyperLogLog.partial_sum z t) = Ok (Float e) /\
    PrimFloat.leb 10.8 e = true /\
    PrimFloat.leb 3 e && PrimFloat.leb e 7 = false.
Proof.
  intros Hsum. assert (t = 16 - z)%nat as -> by lia.
  by_cases_below 17 z
    using (eexists; split; [vm_compute; reflexivity|split; vm_compute; reflexivity]).
Qed.

(** C4, as the code has it.  [count] has one regime.  In every state of
    every estimator, whatever [b], [m] and the buckets, it ends as the raw
    estimate [E] computed from [m] and the sum [Z] does (with the value of
    [E], or with the error [Z] or [E] raise): there is no linear-counting
    branch, so two states with the same [m] and the same [Z] get the same
    answer however many of their buckets are zero.  With [b = 4], whatever
    values were added, five distinct ones or others, the estimate is a
    float of at least 10.8 ([Z] is at most [m]), so never within 2 of 5. *)
Theorem C4_raw_estimate_only (self : HyperLogLog.t) (values : list string) :
  HyperLogLog.count self
  = (Zsum ← sum ((fun bucket => pow2 (- bucket)) <$> HyperLogLog.buckets self);
     HyperLogLog.E (HyperLogLog.m self) Zsum) /\
  (forall other,
     HyperLogLog.m other = HyperLogLog.m self ->
     sum ((fun bucket => pow2 (- bucket)) <$> HyperLogLog.buckets other)
     = sum ((fun bucket => pow2 (- bucket)) <$> HyperLogLog.buckets self) ->
     HyperLogLog.count other = HyperLogLog.count self) /\
  exists self0 e,
    HyperLogLog.__init__ 4 = Ok self0 /\
    HyperLogLog.count (HyperLogLog.add_all self0 values) = Ok (Float e) /\
    count_unique_hyperloglog values 4 = Ok (Float e) /\
    PrimFloat.leb 10.8 e = true /\
    PrimFloat.leb 3 e && PrimFloat.leb e 7 = false.
Proof.
  split; [reflexivity|].
  split; [intros other Hm Hsum; unfold HyperLogLog.count; by rewrite Hm, Hsum|].
  pose proof (HyperLogLogFacts.init_ok 4 ltac:(lia)) as Hinit.
  set (self0 := HyperLogLog.mk 4 _ _) in Hinit.
  assert (Hwf : HyperLogLog.wf self0)
    by (eapply HyperLogLogFacts.estimator_init_wf; [|exact Hinit]; lia).
  assert (Hsame : HyperLogLog.count (HyperLogLog.add_all self0 values)
                  = count_unique_hyperloglog values 4).
  { unfold count_unique_hyperloglog. rewrite Hinit. cbn [mbind result_bind].
    rewrite (HyperLogLogFacts.add_each_wf values self0 Hwf). reflexivity. }
  exists self0. rewrite <- Hsame. clear Hsame.
  destruct (HyperLogLogFacts.add_all_fields values self0) as (Hb & Hm & Hlen).
  assert (Hbin : Forall HyperLogLog.binary
                   (HyperLogLog.buckets (HyperLogLog.add_all self0 values))).
  { apply HyperLogLogFacts.add_all_binary. unfold self0. cbn. repeat constructor. }
  destruct (HyperLogLog.add_all self0 values) as [b m bs]. simpl in *. subst b m.
  destruct (sum_from_binary bs 0 0 Hbin ltac:(lia)) as (z & t & Hzt & Hsum).
  destruct (E_16_binary z t ltac:(lia)) as (e & He & Hlo & Hout).
  assert (Hcount : HyperLogLog.count (HyperLogLog.mk 4 (2 ^ 4) bs) = Ok (Float e)).
  { unfold HyperLogLog.count, sum. cbn [HyperLogLog.buckets HyperLogLog.m].
    change (Int 0) with (HyperLogLog.partial_sum 0 0). rewrite Hsum. exact He. }
  exists e. split_and?; done.
Qed.

Lemma ln_le_pred (x : R) : (0 < x)%R -> (ln x <= x - 1)%R.
Proof.
  intros Hx. pose proof (exp_ineq1_le (ln x)) as H.
  rewrite exp_ln in H by done. lra.
Qed.

(** C4 as stated fails: after [HyperLogLog(4)] has seen the five distinct
    values ["a"] to ["e"], eleven buckets are still zero and the raw
    estimate, 12.813851101526025, is below [2.5 * 16], so the claim's
    linear-counting regime applies; [count] returns the raw estimate all the
    same, which is above the linear-counting value [16 * ln(16 / 11)] and
    not within 2 of 5. *)
Lemma C4_counterexample :
  exists self0,
    HyperLogLog.__init__ 4 = Ok self0 /\
    let self := HyperLogLog.add_all self0 ["a"; "b"; "c"; "d"; "e"] in
    HyperLogLog.buckets self = [0; 1; 1; 1; 0; 0; 0; 0; 0; 0; 0; 0; 0; 1; 0; 1] /\
    HyperLogLog.zero_buckets self = 11 /\
    HyperLogLog.count self = Ok (Float 12.813851101526025) /\
    count_unique_hyperloglog ["a"; "b"; "c"; "d"; "e"] 4
      = Ok (Float 12.813851101526025) /\
    PrimFloat.leb 12.813851101526025 (2.5 * 16) = true /\
    (HyperLogLog.linear_counting 16 11 < real_of_float 12.813851101526025)%R /\
    HyperLogLog.count_within 3 7 self = false.
Proof.
  eexists. split; [vm_compute; reflexivity|].
  cbv zeta. split_and?; try (vm_compute; reflexivity).
  unfold HyperLogLog.linear_counting, real_of_float.
  replace (Prim2SF 12.813851101526025)
    with (S754_finite false 7213556880751703 (-49)) by (vm_compute; reflexivity).
  pose proof (ln_le_pred (16 / 11)%R ltac:(lra)).
  rewrite decide_False by lia. change (2 ^ (- -49)) with 562949953421312.
  lra.
Qed.

(** C5, as the code has it.  No constructor validates its parameters.  A
    [BloomFilter] is created for every size from 0 to [2^24] and every
    [num_hashes], zero included, and a [HyperLogLog] for every [b] from 0
    (one bucket) to 24; nothing is raised.  On a filter of size 0 the first
    [add] or [check] with [num_hashes > 0] raises [ZeroDivisionError]; with
    [num_hashes = 0], [add] changes nothing and [check] returns [True]. *)
Theorem C5_construction_unchecked (size k b : Z) (item : string) :
  0 <= size <= 2 ^ 24 -> 0 <= b <= 24 ->
  BloomFilter.__init__ size k
    = Ok (BloomFilter.mk size k (replicate (Z.to_nat size) false)) /\
  HyperLogLog.__init__ b
    = Ok (HyperLogLog.mk b (2 ^ b) (replicate (Z.to_nat (2 ^ b)) 0)) /\
  (0 < k ->
   BloomFilter.add (BloomFilter.mk 0 k []) item
     = (Raise ZeroDivisionError, BloomFilter.mk 0 k []) /\
   BloomFilter.check (BloomFilter.mk 0 k []) item = Raise ZeroDivisionError) /\
  (let self := BloomFilter.mk size 0 (replicate (Z.to_nat size) false) in
   BloomFilter.add self item = (Ok tt, self) /\
   BloomFilter.check self item = Ok true).
Proof.
  intros Hsize Hb. split; [|split; [|split]].
  - unfold BloomFilter.__init__. rewrite decide_False by lia. reflexivity.
  - apply HyperLogLogFacts.init_ok. lia.
  - intros Hk. unfold BloomFilter.add, BloomFilter.check, BloomFilter._hashes, range.
    cbn [BloomFilter.size BloomFilter.num_hashes].
    rewrite (seqZ_cons 0 k) by lia. split; reflexivity.
  - split; reflexivity.
Qed.

Lemma C5_witness :
  BloomFilter.__init__ 0 3 = Ok (BloomFilter.mk 0 3 []) /\
  HyperLogLog.__init__ 0 = Ok (HyperLogLog.mk 0 1 [0]) /\
  (0 < 3 ->
   BloomFilter.add (BloomFilter.mk 0 3 []) "a"
     = (Raise ZeroDivisionError, BloomFilter.mk 0 3 []) /\
   BloomFilter.check (BloomFilter.mk 0 3 []) "a" = Raise ZeroDivisionError) /\
  (BloomFilter.add (BloomFilter.mk 0 0 []) "a" = (Ok tt, BloomFilter.mk 0 0 []) /\
   BloomFilter.check (BloomFilter.mk 0 0 []) "a" = Ok true).
Proof.
  apply (C5_construction_unchecked 0 3 0 "a"); lia.
Defined.

(** C5 as stated fails: [BloomFilter(0, 3)], [BloomFilter(1000, 0)] and
    [HyperLogLog(0)] are all constructed, with their state, and raise
    nothing. *)
Lemma C5_counterexample :
  BloomFilter.__init__ 0 3 = Ok (BloomFilter.mk 0 3 []) /\
  BloomFilter.__init__ 1000 0 = Ok (BloomFilter.mk 1000 0 (replicate 1000 false)) /\
  HyperLogLog.__init__ 0 = Ok (HyperLogLog.mk 0 1 [0]).
Proof. repeat split; reflexivity. Qed.

(** [text.encode('utf8')] succeeds exactly on the texts with no surrogate,
    and writes bytes. *)
Example utf8_known_answers :
  str [] = Ok "" /\
  str [102; 111; 111] = Ok "foo" /\
  utf8 [233] = Ok [0xC3; 0xA9] /\
  utf8 [0x20AC] = Ok [0xE2; 0x82; 0xAC] /\
  utf8 [0x1F600] = Ok [0xF0; 0x9F; 0x98; 0x80] /\
  utf8 [97; 0xD800] = Raise UnicodeEncodeError.
Proof. repeat split; vm_compute; reflexivity. Qed.

Lemma utf8_ok text :
  Forall (fun c => surrogate c = false) text <-> exists bytes, utf8 text = Ok bytes.
Proof.
  induction text as [|c rest IH]; cbn [utf8].
  - split; [eauto | constructor].
  - rewrite Forall_cons, IH. destruct (surrogate c).
    + split; [by intros [? _] | by intros [? ?]].
    + destruct (utf8 rest) as [bytes|e]; cbn [mbind result_bind].
      * split; eauto.
      * split; [by intros [_ [? ?]] | by intros [? ?]].
Qed.

Lemma utf8_char_bytes c : code_point c -> Forall byte (utf8_char c).
Proof.
  unfold code_point, utf8_char, byte. intros Hc.
  repeat case_decide; repeat constructor; Z.div_mod_to_equations; lia.
Qed.

Lemma utf8_bytes text : forall bytes,
  Forall code_point text -> utf8 text = Ok bytes -> Forall byte bytes.
Proof.
  induction text as [|c rest IH]; intros bytes Hall; cbn [utf8].
  - intros [= <-]. constructor.
  - apply Forall_cons in Hall as [Hc Hall]. destruct (surrogate c); [done|].
    destruct (utf8 rest) as [bs|e]; cbn [mbind result_bind]; [|done].
    intros [= <-]. apply Forall_app. split; [by apply utf8_char_bytes | by apply IH].
Qed.

Lemma encode_of_bytes bytes : Forall byte bytes -> encode (of_bytes bytes) = bytes.
Proof.
  unfold encode, of_bytes. rewrite list_ascii_of_string_of_list_ascii.
  induction 1 as [|b bs Hb _ IH]; [done|]. cbn [fmap list_fmap] in *.
  rewrite IH. f_equal. rewrite N_ascii_embedding by (unfold byte in Hb; lia).
  unfold byte in Hb. lia.
Qed.

(** C6, as the code has it.  For every text that has a UTF-8 encoding (a
    [str] with no surrogate among its code points, the empty one included)
    and every index [i] with [0 <= i < 2^32]: [mmh3.hash] returns a signed
    32-bit int, which may be negative; on a filter of positive size with at
    most [2^32] hash functions each value [_hashes] yields is that hash
    modulo the size, an index in [0, size), whatever calls the filter has
    served; and the estimator's [_hash] returns a natural number below
    [2^128]. *)
Theorem C6_hash_values (self : BloomFilter.t) (calls : list BloomFilter.call)
    (text : list Z) :
  0 < BloomFilter.size self ->
  BloomFilter.num_hashes self <= 2 ^ 32 ->
  Forall code_point text ->
  Forall (fun c => surrogate c = false) text ->
  exists item,
    str text = Ok item /\
    utf8 text = Ok (encode item) /\
    (forall i, 0 <= i < 2 ^ 32 -> - 2 ^ 31 <= Murmur3.hash item i < 2 ^ 31) /\
    BloomFilter._hashes self item
      = (fun i => Ok (Murmur3.hash item i `mod` BloomFilter.size self))
          <$> range (BloomFilter.num_hashes self) /\
    (forall i, i ∈ range (BloomFilter.num_hashes self) -> 0 <= i < 2 ^ 32) /\
    (forall i, 0 <= i < 2 ^ 32 ->
       0 <= Murmur3.hash item i `mod` BloomFilter.size self < BloomFilter.size self) /\
    BloomFilter._hashes (BloomFilter.run self calls) item
      = BloomFilter._hashes self item /\
    exists x, HyperLogLog._hash item = Ok x /\ 0 <= x < 2 ^ 128.
Proof.
  intros Hpos Hk Hcode Hsur.
  destruct (proj1 (utf8_ok text) Hsur) as [bytes Hbytes].
  exists (of_bytes bytes).
  pose proof (utf8_bytes text bytes Hcode Hbytes) as Hb.
  split; [unfold str; by rewrite Hbytes|].
  split; [by rewrite encode_of_bytes|].
  split_and?.
  - intros i _. apply murmur3_range.
  - unfold BloomFilter._hashes. apply list_fmap_ext. intros _ i _.
    unfold mod_. rewrite decide_False by lia. reflexivity.
  - intros i Hi. unfold range in Hi. apply elem_of_seqZ in Hi. lia.
  - intros i _. apply Z.mod_pos_bound, Hpos.
  - apply BloomFilterFacts.extends_hashes, BloomFilterFacts.run_extends.
  - apply hash_value_range.
Qed.

Lemma C6_witness :
  let self := BloomFilter.mk 1000 3 (replicate 1000 false) in
  let calls := [BloomFilter.Add "password123"; BloomFilter.Check ""] in
  exists item,
    str [112; 233; 0x20AC] = Ok item /\
    utf8 [112; 233; 0x20AC] = Ok (encode item) /\
    (forall i, 0 <= i < 2 ^ 32 -> - 2 ^ 31 <= Murmur3.hash item i < 2 ^ 31) /\
    BloomFilter._hashes self item
      = (fun i => Ok (Murmur3.hash item i `mod` 1000)) <$> range 3 /\
    (forall i, i ∈ range 3 -> 0 <= i < 2 ^ 32) /\
    (forall i, 0 <= i < 2 ^ 32 -> 0 <= Murmur3.hash item i `mod` 1000 < 1000) /\
    BloomFilter._hashes (BloomFilter.run self calls) item
      = BloomFilter._hashes self item /\
    exists x, HyperLogLog._hash item = Ok x /\ 0 <= x < 2 ^ 128.
Proof.
  apply (C6_hash_values (BloomFilter.mk 1000 3 (replicate 1000 false))
           [BloomFilter.Add "password123"; BloomFilter.Check ""] [112; 233; 0x20AC]).
  - simpl. lia.
  - simpl. lia.
  - repeat apply Forall_cons_2; try apply Forall_nil_2; unfold code_point; lia.
  - repeat apply Forall_cons_2; try apply Forall_nil_2; reflexivity.
Defined.

(** C6 as stated fails.  The filter's hash of ["foo"] with index 0 is
    negative.  On the filter [BloomFilter(0, 3)] the first value [_hashes]
    is asked for raises [ZeroDivisionError], for the empty text as for any
    other, and [check] ends with it.  And the text made of the lone
    surrogate [0xD800] has no encoding: the estimator's [_hash] raises
    [UnicodeEncodeError] on it. *)
Lemma C6_counterexample :
  str [102; 111; 111] = Ok "foo" /\
  Murmur3.hash "foo" 0 = -156908512 /\
  BloomFilter.__init__ 0 3 = Ok (BloomFilter.mk 0 3 []) /\
  head (BloomFilter._hashes (BloomFilter.mk 0 3 []) "") = Some (Raise ZeroDivisionError) /\
  BloomFilter.check (BloomFilter.mk 0 3 []) "" = Raise ZeroDivisionError /\
  (item ← str [0xD800]; HyperLogLog._hash item) = Raise UnicodeEncodeError.
Proof. repeat split; vm_compute; reflexivity. Qed.

(** ** The uniqueness check *)

Module PasswordFacts.
Import BloomFilter BloomFilterFacts.

Lemma all_set_extends hashes self other :
  all_set self hashes = Ok true -> extends self other ->
  all_set other hashes = Ok true.
Proof.
  intros Hset (_ & _ & Hlen & Hsub). revert Hset.
  induction hashes as [|[h|e] rest IH]; simpl; try done.
  unfold getitem. rewrite (index_same_length (bit_array other) (bit_array self)) by done.
  destruct (index (bit_array self) h) as [k|e]; [|done].
  destruct (bit_array self !! k) as [[]|] eqn:Hk; try done.
  rewrite (Hsub k Hk). exact IH.
Qed.

Lemma check_extends self other item :
  check self item = Ok true -> extends self other -> check other item = Ok true.
Proof.
  intros Hc Hext. unfold check. rewrite (extends_hashes self) by done.
  eapply all_set_extends; eassumption.
Qed.

Lemma valid_password_str password item :
  valid_password password = Some item -> password = Str item /\ item <> "".
Proof.
  destruct password as [s| | |]; simpl; try done.
  destruct (String.eqb_spec s ""); [done|]. intros [= ->]. done.
Qed.

Lemma filter_after_extends bf password : extends bf (filter_after bf password).
Proof.
  unfold filter_after. destruct (valid_password password) as [item|];
    [|apply extends_refl].
  destruct (check bf item) as [[]|]; try apply add_extends. apply extends_refl.
Qed.

Lemma foldl_filter_after_extends passwords : forall bf,
  extends bf (foldl filter_after bf passwords).
Proof.
  induction passwords as [|p ps IH]; intros bf; simpl; [apply extends_refl|].
  eapply extends_trans; [apply filter_after_extends | apply IH].
Qed.

Lemma check_after_turn bf password item :
  wf bf -> valid_password password = Some item ->
  check (filter_after bf password) item = Ok true.
Proof.
  intros Hwf Hvalid. unfold filter_after. rewrite Hvalid.
  destruct (check bf item) as [[]|e] eqn:Hc; [exact Hc| |].
  - unfold check. rewrite (extends_hashes bf) by apply add_extends.
    eapply all_set_after_add_loop; [apply add_ok, Hwf | apply extends_refl].
  - destruct (check_ok bf item Hwf) as [r Hr]. congruence.
Qed.

(** Once a valid text has had its turn, [check] accepts it for good. *)
Lemma check_after_seen before : forall bf item,
  wf bf -> item <> "" -> Str item ∈ before ->
  check (foldl filter_after bf before) item = Ok true.
Proof.
  induction before as [|p ps IH]; intros bf item Hwf Hne Hin; [by inversion Hin|].
  simpl. apply elem_of_cons in Hin as [<-|Hin].
  - eapply check_extends; [|apply foldl_filter_after_extends].
    apply check_after_turn; [done|]. simpl.
    destruct (String.eqb_spec item ""); done.
  - apply IH; [|done..]. eapply extends_wf; [exact Hwf | apply filter_after_extends].
Qed.

(** One turn of the loop on a well-formed filter and a hashable element. *)
Lemma loop_step bf results password rest :
  wf bf -> hashable password = true ->
  check_password_loop bf results (password :: rest)
  = check_password_loop (filter_after bf password)
      (<[password := verdict bf password]> results) rest.
Proof.
  intros Hwf Hhash. unfold verdict, filter_after. cbn [check_password_loop].
  unfold setkey. rewrite Hhash.
  destruct password as [item| | |]; simpl; try reflexivity.
  destruct (String.eqb_spec item "") as [->|Hne]; simpl; [reflexivity|].
  destruct (check_ok bf item Hwf) as [[] ->]; [reflexivity|].
  pose proof (add_ok bf item Hwf) as Hadd.
  destruct (add bf item) as [[[]|e] bf']; simpl in *; [reflexivity|discriminate].
Qed.

Lemma loop_spec passwords : forall bf results,
  wf bf -> Forall (fun p => hashable p = true) passwords ->
  exists results',
    check_password_loop bf results passwords
      = (Ok results', foldl filter_after bf passwords) /\
    (forall key, key ∉ passwords -> results' !! key = results !! key) /\
    (forall before password after,
       passwords = before ++ password :: after -> password ∉ after ->
       results' !! password
         = Some (verdict (foldl filter_after bf before) password)).
Proof.
  induction passwords as [|p ps IH]; intros bf results Hwf Hall.
  - exists results. split_and?; [done|done|].
    intros [|] ? ? Heq; discriminate Heq.
  - apply Forall_cons in Hall as [Hp Hall].
    rewrite loop_step by done.
    destruct (IH (filter_after bf p) (<[p := verdict bf p]> results))
      as (results' & Hloop & Hout & Hin); [|done|].
    { eapply extends_wf; [exact Hwf | apply filter_after_extends]. }
    exists results'. split_and?; [exact Hloop| |].
    + intros key [Hne Hnin]%not_elem_of_cons.
      rewrite Hout by done. apply lookup_insert_ne. done.
    + intros [|p' before] password after Heq Hnin; simplify_eq/=.
      * rewrite Hout by done. apply lookup_insert_eq.
      * eapply Hin; done.
Qed.

Lemma loop_app before : forall bf results rest,
  wf bf -> Forall (fun p => hashable p = true) before ->
  exists results',
    check_password_loop bf results before
      = (Ok results', foldl filter_after bf before) /\
    check_password_loop bf results (before ++ rest)
      = check_password_loop (foldl filter_after bf before) results' rest.
Proof.
  induction before as [|p ps IH]; intros bf results rest Hwf Hall.
  - exists results. done.
  - apply Forall_cons in Hall as [Hp Hall]. simpl app.
    rewrite !loop_step by done. simpl foldl. apply IH; [|done].
    eapply extends_wf; [exact Hwf | apply filter_after_extends].
Qed.

End PasswordFacts.

(** C10, as the code has it.  On a filter constructed with a positive size
    and a list of hashable elements, [check_password_uniqueness] returns a
    dict.  At its turn, an element that is not a non-empty string is given
    the rejection status and the filter is left as it was; a non-empty
    string is given the already-used status if [check] returns [True] at
    that point (filter untouched), else the unique status, and is then added
    with one [add].  Each turn overwrites the entry of its key, so the dict
    returned holds, for each key, the status of its last occurrence; a valid
    string that occurred earlier in the list is already-used at every later
    turn. *)
Theorem C10_password_statuses (bf : BloomFilter.t) (passwords : list obj) :
  BloomFilter.wf bf ->
  Forall (fun p => hashable p = true) passwords ->
  exists results bf',
    check_password_uniqueness bf passwords = (Ok results, bf') /\
    forall before password after,
      passwords = before ++ password :: after ->
      exists r0 bf0 status bf1,
        check_password_uniqueness bf before = (Ok r0, bf0) /\
        check_password_uniqueness bf (before ++ [password])
          = (Ok (<[password := status]> r0), bf1) /\
        (password ∉ after -> results !! password = Some status) /\
        match valid_password password with
        | None => status = invalid_password /\ bf1 = bf0
        | Some item =>
            exists r, BloomFilter.check bf0 item = Ok r /\
              if r then status = used_password /\ bf1 = bf0
              else status = unique_password /\
                   BloomFilter.add bf0 item = (Ok tt, bf1)
        end /\
        (forall item, valid_password password = Some item ->
                      Str item ∈ before -> status = used_password).
Proof.
  intros Hwf Hall. unfold check_password_uniqueness.
  destruct (PasswordFacts.loop_spec passwords bf ∅ Hwf Hall)
    as (results & Hloop & _ & Hlast).
  exists results, (foldl filter_after bf passwords). split; [exact Hloop|].
  intros before password after ->.
  apply Forall_app in Hall as [Hbefore [Hp _]%Forall_cons].
  destruct (PasswordFacts.loop_app before bf ∅ [password] Hwf Hbefore)
    as (r0 & Hr0 & Happ).
  set (bf0 := foldl filter_after bf before) in *.
  assert (Hwf0 : BloomFilter.wf bf0).
  { eapply BloomFilterFacts.extends_wf;
      [exact Hwf | apply PasswordFacts.foldl_filter_after_extends]. }
  exists r0, bf0, (verdict bf0 password), (filter_after bf0 password).
  split; [exact Hr0|]. split.
  { rewrite Happ, PasswordFacts.loop_step by done. reflexivity. }
  split; [intros Hnin; eapply Hlast; done|]. split.
  - unfold verdict, filter_after.
    destruct (valid_password password) as [item|]; [|done].
    destruct (BloomFilterFacts.check_ok bf0 item Hwf0) as [r Hr].
    exists r. split; [exact Hr|]. rewrite Hr. destruct r; [done|].
    split; [done|]. pose proof (BloomFilterFacts.add_ok bf0 item Hwf0) as Hadd.
    destruct (BloomFilter.add bf0 item) as [o bf1]. simpl in *. by subst o.
  - intros item Hvalid Hin. unfold verdict. rewrite Hvalid.
    apply PasswordFacts.valid_password_str in Hvalid as [_ Hne].
    pose proof (PasswordFacts.check_after_seen before bf item Hwf Hne Hin) as Hc.
    fold bf0 in Hc. rewrite Hc. reflexivity.
Qed.

Lemma C10_witness :
  exists results bf',
    check_password_uniqueness (BloomFilter.mk 1000 3 (replicate 1000 false))
      [Str "a"; Num 7; Str ""; Str "a"] = (Ok results, bf') /\
    forall before password after,
      [Str "a"; Num 7; Str ""; Str "a"] = before ++ password :: after ->
      exists r0 bf0 status bf1,
        check_password_uniqueness (BloomFilter.mk 1000 3 (replicate 1000 false)) before
          = (Ok r0, bf0) /\
        check_password_uniqueness (BloomFilter.mk 1000 3 (replicate 1000 false))
          (before ++ [password])
          = (Ok (<[password := status]> r0), bf1) /\
        (password ∉ after -> results !! password = Some status) /\
        match valid_password password with
        | None => status = invalid_password /\ bf1 = bf0
        | Some item =>
            exists r, BloomFilter.check bf0 item = Ok r /\
              if r then status = used_password /\ bf1 = bf0
              else status = unique_password /\
                   BloomFilter.add bf0 item = (Ok tt, bf1)
        end /\
        (forall item, valid_password password = Some item ->
                      Str item ∈ before -> status = used_password).
Proof.
  apply (C10_password_statuses (BloomFilter.mk 1000 3 (replicate 1000 false))).
  - split; [simpl; lia | reflexivity].
  - repeat constructor.
Defined.

(** C10 as stated fails.  On a fresh [BloomFilter(1000, 3)] and the list
    [["a", "a"]], [check("a")] returns [False] at the first occurrence, yet
    the dict returned maps ["a"] to the already-used status, not to the
    unique one: the second turn overwrote the entry.  On a filter that
    already holds ["a"], the first occurrence of ["a"] in the list is
    already-used, not unique.  And a list that holds an unhashable element
    gets no dict at all: the assignment raises [TypeError]. *)
Lemma C10_counterexample :
  let bf := BloomFilter.mk 1000 3 (replicate 1000 false) in
  let bf1 := (BloomFilter.add bf "a").2 in
  BloomFilter.check bf "a" = Ok false /\
  check_password_uniqueness bf [Str "a"; Str "a"]
    = (Ok {[ Str "a" := used_password ]}, bf1) /\
  used_password <> unique_password /\
  check_password_uniqueness bf1 [Str "a"]
    = (Ok {[ Str "a" := used_password ]}, bf1) /\
  check_password_uniqueness bf [List_ []] = (Raise TypeError, bf).
Proof.
  cbv zeta. split_and?; try (vm_compute; reflexivity).
  unfold used_password, unique_password. discriminate.
Qed.

(** * Further properties of the code *)

(** ** Folding an operation that commutes and absorbs repetitions *)

Section FoldSet.
Context {S A : Type} `{EqDecision A}.
Variable f : S -> A -> S.
Variable inv : S -> Prop.
Hypothesis inv_step : forall s a, inv s -> inv (f s a).
Hypothesis f_comm : forall s a b, inv s -> f (f s a) b = f (f s b) a.
Hypothesis f_idem : forall s a, inv s -> f (f s a) a = f s a.

Lemma foldl_inv l : forall s, inv s -> inv (foldl f s l).
Proof. induction l as [|a l IH]; intros s Hs; simpl; auto. Qed.

Lemma foldl_comm_permutation l l' :
  l ≡ₚ l' -> forall s, inv s -> foldl f s l = foldl f s l'.
Proof.
  induction 1 as [|a l l' _ IH|a b l|l1 l2 l3 _ IH1 _ IH2]; intros s Hs; simpl.
  - reflexivity.
  - apply IH, inv_step, Hs.
  - rewrite f_comm by done. reflexivity.
  - rewrite IH1 by done. apply IH2, Hs.
Qed.

Lemma foldl_absorb a l s : inv s -> a ∈ l -> foldl f s (a :: l) = foldl f s l.
Proof.
  intros Hs Hin. apply elem_of_Permutation in Hin as [l' Hl'].
  rewrite (foldl_comm_permutation (a :: l) (a :: a :: l')) by (done || by f_equiv).
  rewrite (foldl_comm_permutation l (a :: l')) by done.
  simpl. rewrite f_idem by done. reflexivity.
Qed.

Lemma foldl_remove_dups l : forall s, inv s -> foldl f s l = foldl f s (remove_dups l).
Proof.
  induction l as [|a l IH]; intros s Hs; [done|].
  cbn [remove_dups]. case_decide as Hin.
  - rewrite foldl_absorb by done. apply IH, Hs.
  - simpl. apply IH, inv_step, Hs.
Qed.

(** The fold depends on the set of the elements only. *)
Lemma foldl_same_elements l l' s :
  inv s -> (forall x, x ∈ l <-> x ∈ l') -> foldl f s l = foldl f s l'.
Proof.
  intros Hs Hsame. rewrite (foldl_remove_dups l), (foldl_remove_dups l') by done.
  apply foldl_comm_permutation; [|done].
  apply NoDup_Permutation; try apply NoDup_remove_dups.
  intros x. rewrite !elem_of_remove_dups. apply Hsame.
Qed.

End FoldSet.

(** ** More on the Bloom filter *)

Module BloomFilterMore.
Import BloomFilter BloomFilterFacts.

Lemma set_bits_length ks : forall l, length (set_bits ks l) = length l.
Proof.
  unfold set_bits. induction ks as [|k ks IH]; intros l; simpl; [done|].
  rewrite IH. apply length_insert.
Qed.

Lemma set_bits_lookup ks : forall l i,
  set_bits ks l !! i
  = if bool_decide (i ∈ ks) then (fun _ => true) <$> l !! i else l !! i.
Proof.
  unfold set_bits. induction ks as [|k ks IH]; intros l i; cbn [foldl].
  - rewrite bool_decide_eq_false_2 by apply not_elem_of_nil. reflexivity.
  - rewrite IH, list_lookup_insert.
    destruct (decide (i = k)) as [->|Hne].
    + rewrite (bool_decide_eq_true_2 (k ∈ k :: ks)) by apply list_elem_of_here.
      destruct (decide (k = k /\ (k < length l)%nat)) as [[_ Hk]|Hk].
      * destruct (lookup_lt_is_Some_2 l k Hk) as [x ->].
        by destruct (bool_decide (k ∈ ks)).
      * rewrite (lookup_ge_None_2 l k) by lia. by destruct (bool_decide (k ∈ ks)).
    + rewrite decide_False by (intros [? _]; congruence).
      apply (f_equal (fun (c : bool) => if c then _ else _)).
      apply bool_decide_ext. rewrite elem_of_cons. tauto.
Qed.

Lemma set_bits_comm ks ks' l :
  set_bits ks (set_bits ks' l) = set_bits ks' (set_bits ks l).
Proof.
  apply list_eq. intros i. rewrite !set_bits_lookup.
  repeat case_bool_decide; destruct (l !! i); reflexivity.
Qed.

Lemma set_bits_idem ks l : set_bits ks (set_bits ks l) = set_bits ks l.
Proof.
  apply list_eq. intros i. rewrite !set_bits_lookup.
  repeat case_bool_decide; destruct (l !! i); reflexivity.
Qed.

Lemma probes_lt self item :
  wf self -> Forall (fun k => (k < length (bit_array self))%nat) (probes self item).
Proof.
  intros [Hpos Hlen]. unfold probes. apply Forall_fmap, Forall_forall.
  intros i _. simpl. pose proof (Z.mod_pos_bound (Murmur3.hash item i) _ Hpos). lia.
Qed.

Lemma hashes_probes self item :
  0 < size self ->
  _hashes self item = (fun k => Ok (Z.of_nat k)) <$> probes self item.
Proof.
  intros Hpos. unfold _hashes, probes. rewrite <- list_fmap_compose.
  apply list_fmap_ext. intros _ i _. simpl. unfold mod_.
  rewrite decide_False by lia.
  pose proof (Z.mod_pos_bound (Murmur3.hash item i) _ Hpos).
  rewrite Z2Nat.id by lia. reflexivity.
Qed.

Lemma add_loop_probes ks : forall self,
  Forall (fun k => (k < length (bit_array self))%nat) ks ->
  add_loop self ((fun k => Ok (Z.of_nat k)) <$> ks)
  = (Ok tt, with_bits self (set_bits ks (bit_array self))).
Proof.
  induction ks as [|k ks IH]; intros self Hall; simpl.
  - by rewrite with_bits_id.
  - apply Forall_cons in Hall as [Hk Hall].
    unfold setitem. rewrite index_in_range by lia. rewrite Nat2Z.id.
    rewrite IH by (simpl; by rewrite length_insert). reflexivity.
Qed.

Lemma all_set_probes ks self :
  Forall (fun k => (k < length (bit_array self))%nat) ks ->
  all_set self ((fun k => Ok (Z.of_nat k)) <$> ks)
  = Ok (bool_decide (Forall (fun k => bit_array self !! k = Some true) ks)).
Proof.
  induction ks as [|k ks IH]; intros Hall; cbn [fmap list_fmap all_set].
  - by rewrite bool_decide_eq_true_2.
  - apply Forall_cons in Hall as [Hk Hall].
    unfold getitem. rewrite index_in_range by lia. rewrite Nat2Z.id.
    destruct (lookup_lt_is_Some_2 (bit_array self) k Hk) as [[] Hx]; rewrite Hx.
    + rewrite IH by done. f_equal. apply bool_decide_ext.
      rewrite Forall_cons. tauto.
    + f_equal. symmetry. apply bool_decide_eq_false_2.
      rewrite Forall_cons. intros [? _]. congruence.
Qed.

Lemma add_probes self item :
  wf self ->
  add self item = (Ok tt, with_bits self (set_bits (probes self item) (bit_array self))).
Proof.
  intros Hwf. unfold add. rewrite hashes_probes by apply Hwf.
  apply add_loop_probes, probes_lt, Hwf.
Qed.

Lemma check_probes self item :
  wf self ->
  check self item
  = Ok (bool_decide (Forall (fun k => bit_array self !! k = Some true)
                            (probes self item))).
Proof.
  intros Hwf. unfold check. rewrite hashes_probes by apply Hwf.
  apply all_set_probes, probes_lt, Hwf.
Qed.

Lemma add_state_wf self item : wf self -> wf (add self item).2.
Proof. intros Hwf. eapply extends_wf; [exact Hwf | apply add_extends]. Qed.

Lemma add_state_comm self a b :
  wf self -> (add (add self a).2 b).2 = (add (add self b).2 a).2.
Proof.
  intros Hwf. rewrite (add_probes self a), (add_probes self b) by done. simpl.
  rewrite !add_probes
    by (destruct Hwf; split; simpl; rewrite ?set_bits_length; done).
  simpl. unfold with_bits, probes. simpl. f_equal. apply set_bits_comm.
Qed.

Lemma add_state_idem self a :
  wf self -> (add (add self a).2 a).2 = (add self a).2.
Proof.
  intros Hwf. rewrite (add_probes self a) by done. simpl.
  rewrite add_probes
    by (destruct Hwf; split; simpl; rewrite ?set_bits_length; done).
  simpl. unfold with_bits, probes. simpl. f_equal. apply set_bits_idem.
Qed.

Lemma run_adds self items :
  run self (Add <$> items) = foldl (fun s item => (add s item).2) self items.
Proof.
  unfold run. revert self. induction items as [|x items IH]; intros self; simpl; [done|].
  apply IH.
Qed.

Lemma run_adds_lookup items : forall self i,
  wf self ->
  bit_array (run self (Add <$> items)) !! i = Some true
  <-> bit_array self !! i = Some true \/ exists y, y ∈ items /\ i ∈ probes self y.
Proof.
  induction items as [|x items IH]; intros self i Hwf.
  - simpl. split; [auto|]. intros [H|(y & Hy & _)]; [done|]. by apply not_elem_of_nil in Hy.
  - change (run self (Add <$> x :: items))
      with (run (add self x).2 (Add <$> items)).
    rewrite IH by apply add_state_wf, Hwf.
    rewrite (add_probes self x Hwf). simpl.
    change (probes (with_bits self ?l)) with (probes self).
    rewrite set_bits_lookup. split.
    + intros [Hbit|(y & Hy & Hin)].
      * case_bool_decide as Hp.
        -- right. exists x. split; [apply list_elem_of_here | done].
        -- by left.
      * right. exists y. split; [by apply list_elem_of_further | done].
    + intros [Hbit|(y & [->|Hy]%elem_of_cons & Hin)].
      * left. case_bool_decide; [|done]. by rewrite Hbit.
      * left. rewrite bool_decide_eq_true_2 by done.
        pose proof (probes_lt self x Hwf) as Hlt. rewrite Forall_forall in Hlt.
        destruct (lookup_lt_is_Some_2 (bit_array self) i (Hlt i Hin)) as [v ->].
        reflexivity.
      * right. eauto.
Qed.

Lemma popcount_insert k : forall bits,
  (popcount bits <= popcount (<[k := true]> bits) <= S (popcount bits))%nat.
Proof.
  unfold popcount. induction k as [|k IH]; intros [|bit bits]; simpl; try lia.
  - rewrite !filter_cons. destruct bit; repeat case_decide; simpl; try done; lia.
  - rewrite !filter_cons. specialize (IH bits).
    case_decide; simpl; lia.
Qed.

Lemma popcount_set_bits ks : forall bits,
  (popcount bits <= popcount (set_bits ks bits) <= popcount bits + length ks)%nat.
Proof.
  unfold set_bits. induction ks as [|k ks IH]; intros bits; simpl; [lia|].
  specialize (IH (<[k := true]> bits)). pose proof (popcount_insert k bits). lia.
Qed.

Lemma popcount_clear n : popcount (replicate n false) = 0%nat.
Proof.
  unfold popcount. induction n as [|n IH]; [done|]. simpl.
  rewrite filter_cons_False by done. exact IH.
Qed.

End BloomFilterMore.

(** X1. A filter that has just been constructed with a positive size and at
    least one hash function rejects every item: [check] returns [False]. *)
Theorem X1_fresh_filter_rejects (m k : Z) (self0 : BloomFilter.t) (item : string) :
  0 < m -> 0 < k ->
  BloomFilter.__init__ m k = Ok self0 ->
  BloomFilter.check self0 item = Ok false.
Proof.
  intros Hm Hk Hinit.
  destruct (BloomFilterFacts.filter_init_wf m k self0 Hm Hinit) as (Hwf & Hsize & Hnum).
  rewrite BloomFilterMore.check_probes by done. f_equal.
  apply bool_decide_eq_false_2. unfold probes, range. rewrite Hnum.
  rewrite (seqZ_cons 0 k) by lia. rewrite fmap_cons, Forall_cons. intros [Hbit _].
  revert Hinit Hbit. unfold BloomFilter.__init__. rewrite decide_False by lia.
  intros [= <-]. simpl. intros Hbit.
  apply lookup_replicate in Hbit as [Hbit _]. discriminate.
Qed.

Lemma X1_witness :
  BloomFilter.check (BloomFilter.mk 1000 3 (replicate 1000 false)) "password123"
  = Ok false.
Proof.
  apply (X1_fresh_filter_rejects 1000 3); [lia | lia | reflexivity].
Defined.

(** X2. On a filter of positive size whose bit array has that length, [add]
    returns normally, keeps [size], [num_hashes] and the length of the bit
    array, and sets exactly the positions [hash(item, i) % size] for [i]
    below [num_hashes]: a bit is set afterwards if and only if it was set
    before or is one of these positions. *)
Theorem X2_add_sets_exactly_the_probes (self : BloomFilter.t) (item : string) :
  BloomFilter.wf self ->
  exists self',
    BloomFilter.add self item = (Ok tt, self') /\
    BloomFilter.size self' = BloomFilter.size self /\
    BloomFilter.num_hashes self' = BloomFilter.num_hashes self /\
    length (BloomFilter.bit_array self') = length (BloomFilter.bit_array self) /\
    forall i,
      BloomFilter.bit_array self' !! i = Some true
      <-> BloomFilter.bit_array self !! i = Some true \/ i ∈ probes self item.
Proof.
  intros Hwf. eexists. split; [apply BloomFilterMore.add_probes, Hwf|].
  simpl. split_and?; try done; [apply BloomFilterMore.set_bits_length|].
  intros i. rewrite BloomFilterMore.set_bits_lookup.
  case_bool_decide as Hp.
  - pose proof (BloomFilterMore.probes_lt self item Hwf) as Hlt.
    rewrite Forall_forall in Hlt.
    destruct (lookup_lt_is_Some_2 _ i (Hlt i Hp)) as [v ->]. simpl. tauto.
  - tauto.
Qed.

Lemma X2_witness :
  exists self',
    BloomFilter.add (BloomFilter.mk 1000 3 (replicate 1000 false)) "a" = (Ok tt, self') /\
    BloomFilter.size self' = 1000 /\
    BloomFilter.num_hashes self' = 3 /\
    length (BloomFilter.bit_array self') = length (replicate 1000 false) /\
    forall i,
      BloomFilter.bit_array self' !! i = Some true
      <-> replicate 1000 false !! i = Some true
          \/ i ∈ probes (BloomFilter.mk 1000 3 (replicate 1000 false)) "a".
Proof.
  apply (X2_add_sets_exactly_the_probes (BloomFilter.mk 1000 3 (replicate 1000 false))).
  split; [simpl; lia | reflexivity].
Defined.

(** X3. The state a sequence of [add] calls leaves depends only on which
    items were added, not on their order or on how often each was added. *)
Theorem X3_filter_depends_on_the_set_added (self : BloomFilter.t)
    (items items' : list string) :
  BloomFilter.wf self ->
  (forall x, x ∈ items <-> x ∈ items') ->
  BloomFilter.run self (BloomFilter.Add <$> items)
  = BloomFilter.run self (BloomFilter.Add <$> items').
Proof.
  intros Hwf Hsame. rewrite !BloomFilterMore.run_adds.
  apply (foldl_same_elements _ BloomFilter.wf); try done.
  - intros s a. apply BloomFilterMore.add_state_wf.
  - intros s a b. apply BloomFilterMore.add_state_comm.
  - intros s a. apply BloomFilterMore.add_state_idem.
Qed.

Lemma X3_witness :
  BloomFilter.run (BloomFilter.mk 1000 3 (replicate 1000 false))
    (BloomFilter.Add <$> ["a"; "b"; "a"])
  = BloomFilter.run (BloomFilter.mk 1000 3 (replicate 1000 false))
      (BloomFilter.Add <$> ["b"; "a"]).
Proof.
  apply (X3_filter_depends_on_the_set_added
           (BloomFilter.mk 1000 3 (replicate 1000 false)) ["a"; "b"; "a"] ["b"; "a"]).
  - split; [simpl; lia | reflexivity].
  - intros x. rewrite !elem_of_cons, elem_of_nil. tauto.
Defined.

(** X4. On a filter constructed with a positive size and then fed [items],
    [check(x)] returns [True] exactly when every position probed for [x] is
    a position probed for some added item; so a false positive is an item
    whose positions are all covered by those of the items added. *)
Theorem X4_check_is_coverage (m k : Z) (self0 : BloomFilter.t)
    (items : list string) (x : string) :
  0 < m ->
  BloomFilter.__init__ m k = Ok self0 ->
  exists r,
    BloomFilter.check (BloomFilter.run self0 (BloomFilter.Add <$> items)) x = Ok r /\
    (r = true <->
     forall i, i ∈ probes self0 x -> exists y, y ∈ items /\ i ∈ probes self0 y).
Proof.
  intros Hm Hinit.
  destruct (BloomFilterFacts.filter_init_wf m k self0 Hm Hinit) as (Hwf & _ & _).
  pose proof (BloomFilterFacts.run_extends (BloomFilter.Add <$> items) self0) as Hext.
  assert (Hwf' : BloomFilter.wf (BloomFilter.run self0 (BloomFilter.Add <$> items)))
    by eauto using BloomFilterFacts.extends_wf.
  eexists. split; [apply BloomFilterMore.check_probes, Hwf'|].
  rewrite bool_decide_eq_true, Forall_forall.
  assert (Hp : probes (BloomFilter.run self0 (BloomFilter.Add <$> items)) x
               = probes self0 x).
  { unfold probes. destruct Hext as (-> & -> & _). reflexivity. }
  rewrite Hp.
  assert (Hfresh : forall i, BloomFilter.bit_array self0 !! i <> Some true).
  { revert Hinit. unfold BloomFilter.__init__. case_decide; [done|].
    intros [= <-] i. simpl. intros [[=] _]%lookup_replicate. }
  split; intros H i Hi.
  - specialize (H i Hi).
    apply BloomFilterMore.run_adds_lookup in H as [H|H]; [|done..].
    by apply Hfresh in H.
  - apply BloomFilterMore.run_adds_lookup; [done|]. right. by apply H.
Qed.

Lemma X4_witness :
  exists r,
    BloomFilter.check
      (BloomFilter.run (BloomFilter.mk 1000 3 (replicate 1000 false))
         (BloomFilter.Add <$> ["password123"; "admin123"])) "guest" = Ok r /\
    (r = true <->
     forall i, i ∈ probes (BloomFilter.mk 1000 3 (replicate 1000 false)) "guest" ->
       exists y, y ∈ ["password123"; "admin123"]
                 /\ i ∈ probes (BloomFilter.mk 1000 3 (replicate 1000 false)) y).
Proof.
  apply (X4_check_is_coverage 1000 3); [lia | reflexivity].
Defined.

(** X5. Each [add] sets at most [num_hashes] further bits and clears none:
    after [n] calls to [add] on a filter constructed with a positive size
    and [k >= 0] hash functions, at most [n * k] bits are set. *)
Theorem X5_fill_is_bounded (m k : Z) (self0 : BloomFilter.t) (items : list string) :
  0 < m -> 0 <= k ->
  BloomFilter.__init__ m k = Ok self0 ->
  (popcount (BloomFilter.bit_array (BloomFilter.run self0 (BloomFilter.Add <$> items)))
   <= length items * Z.to_nat k)%nat.
Proof.
  intros Hm Hk Hinit.
  destruct (BloomFilterFacts.filter_init_wf m k self0 Hm Hinit) as (Hwf & _ & Hnum).
  assert (Hzero : popcount (BloomFilter.bit_array self0) = 0%nat).
  { revert Hinit. unfold BloomFilter.__init__. case_decide; [done|].
    intros [= <-]. simpl. apply BloomFilterMore.popcount_clear. }
  rewrite BloomFilterMore.run_adds.
  enough (Hgen : forall self, BloomFilter.wf self -> BloomFilter.num_hashes self = k ->
            (popcount (BloomFilter.bit_array
               (foldl (fun s item => (BloomFilter.add s item).2) self items))
             <= popcount (BloomFilter.bit_array self) + length items * Z.to_nat k)%nat).
  { specialize (Hgen self0 Hwf Hnum). lia. }
  induction items as [|x items IH]; intros self Hself Hnumk; simpl; [lia|].
  pose proof (BloomFilterFacts.add_extends self x) as (_ & Hk' & _).
  specialize (IH (BloomFilter.add self x).2
                 (BloomFilterMore.add_state_wf self x Hself) ltac:(congruence)).
  rewrite (BloomFilterMore.add_probes self x Hself) in IH |- *. simpl in *.
  pose proof (BloomFilterMore.popcount_set_bits (probes self x)
                (BloomFilter.bit_array self)) as Hpop.
  assert (length (probes self x) = Z.to_nat k) as Hlen.
  { unfold probes, range. rewrite length_fmap, length_seqZ. congruence. }
  lia.
Qed.

Lemma X5_witness :
  (popcount (BloomFilter.bit_array
     (BloomFilter.run (BloomFilter.mk 1000 3 (replicate 1000 false))
        (BloomFilter.Add <$> ["password123"; "admin123"; "qwerty123"])))
   <= length ["password123"; "admin123"; "qwerty123"] * Z.to_nat 3)%nat.
Proof.
  apply (X5_fill_is_bounded 1000 3); [lia | lia | reflexivity].
Defined.

(** ** More on the uniqueness check *)

Module PasswordMore.
Import BloomFilter BloomFilterFacts PasswordFacts.

Lemma filter_after_known bf password :
  (forall item, valid_password password = Some item -> check bf item = Ok true) ->
  filter_after bf password = bf /\
  verdict bf password
  = match valid_password password with
    | Some _ => used_password
    | None => invalid_password
    end.
Proof.
  intros Hknown. unfold filter_after, verdict.
  destruct (valid_password password) as [item|]; [|done].
  rewrite (Hknown item eq_refl). done.
Qed.

Lemma foldl_filter_after_known passwords bf :
  (forall item, Str item ∈ passwords -> item <> "" -> check bf item = Ok true) ->
  foldl filter_after bf passwords = bf.
Proof.
  induction passwords as [|p ps IH]; intros Hknown; simpl; [done|].
  destruct (filter_after_known bf p) as [-> _].
  - intros item [-> Hne]%valid_password_str. apply Hknown; [apply list_elem_of_here|done].
  - apply IH. intros item Hin. apply Hknown. by apply list_elem_of_further.
Qed.

Lemma loop_invalid passwords : forall bf results,
  Forall (fun p => hashable p = true /\ valid_password p = None) passwords ->
  exists results',
    check_password_loop bf results passwords = (Ok results', bf) /\
    forall key, results' !! key
                = if decide (key ∈ passwords) then Some invalid_password
                  else results !! key.
Proof.
  induction passwords as [|p ps IH]; intros bf results Hall.
  - exists results. split; [done|]. intros key.
    rewrite decide_False by apply not_elem_of_nil. done.
  - apply Forall_cons in Hall as [[Hhash Hinvalid] Hall].
    destruct (IH bf (<[p := invalid_password]> results) Hall) as (results' & Hloop & Hkeys).
    exists results'. split.
    + cbn [check_password_loop]. unfold setkey. rewrite Hhash.
      destruct p as [item| | |]; simpl in *; try exact Hloop.
      destruct (String.eqb item ""); [exact Hloop | discriminate].
    + intros key. rewrite Hkeys.
      destruct (decide (key ∈ ps)) as [Hin|Hnin].
      * rewrite decide_True by (by apply list_elem_of_further). done.
      * destruct (decide (key = p)) as [->|Hne].
        -- rewrite decide_True by apply list_elem_of_here. apply lookup_insert_eq.
        -- rewrite decide_False by (rewrite elem_of_cons; tauto).
           by apply lookup_insert_ne.
Qed.

End PasswordMore.

(** X6. On a filter of positive size and a list of hashable elements, the
    dict returned holds one entry for every element of the list and no
    other, each with one of the three statuses, and the filter the call
    leaves has every bit the filter had before. *)
Theorem X6_one_entry_per_element (bf : BloomFilter.t) (passwords : list obj) :
  BloomFilter.wf bf ->
  Forall (fun p => hashable p = true) passwords ->
  exists results bf',
    check_password_uniqueness bf passwords = (Ok results, bf') /\
    BloomFilter.extends bf bf' /\
    (forall key, is_Some (results !! key) <-> key ∈ passwords) /\
    (forall key status, results !! key = Some status ->
       status = invalid_password \/ status = used_password
       \/ status = unique_password).
Proof.
  intros Hwf Hall. unfold check_password_uniqueness.
  destruct (PasswordFacts.loop_spec passwords bf ∅ Hwf Hall)
    as (results & Hloop & Hout & Hlast).
  exists results, (foldl filter_after bf passwords).
  split; [exact Hloop|]. split; [apply PasswordFacts.foldl_filter_after_extends|].
  assert (Hin : forall key, key ∈ passwords ->
            exists bf0, results !! key = Some (verdict bf0 key)).
  { intros key (before & after & -> & Hnin)%list_elem_of_split_r.
    eexists. eapply Hlast; done. }
  split.
  - intros key. split.
    + intros Hsome. destruct (decide (key ∈ passwords)) as [|Hnin]; [done|].
      rewrite (Hout key Hnin), lookup_empty in Hsome. by destruct Hsome.
    + intros (bf0 & ->)%Hin. eauto.
  - intros key status Hkey.
    destruct (decide (key ∈ passwords)) as [(bf0 & Hv)%Hin|Hnin].
    + rewrite Hv in Hkey. injection Hkey as <-. unfold verdict.
      destruct (valid_password key); [|by left].
      destruct (BloomFilter.check bf0 s) as [[]|]; auto.
    + by rewrite (Hout key Hnin), lookup_empty in Hkey.
Qed.

Lemma X6_witness :
  exists results bf',
    check_password_uniqueness (BloomFilter.mk 1000 3 (replicate 1000 false))
      [Str "a"; None_; Str ""; Str "a"] = (Ok results, bf') /\
    BloomFilter.extends (BloomFilter.mk 1000 3 (replicate 1000 false)) bf' /\
    (forall key, is_Some (results !! key) <-> key ∈ [Str "a"; None_; Str ""; Str "a"]) /\
    (forall key status, results !! key = Some status ->
       status = invalid_password \/ status = used_password
       \/ status = unique_password).
Proof.
  apply (X6_one_entry_per_element (BloomFilter.mk 1000 3 (replicate 1000 false))).
  - split; [simpl; lia | reflexivity].
  - repeat constructor.
Defined.

(** X7. Running the check a second time on the same list, with the filter
    the first run left, changes the filter no more and reports every
    non-empty string of the list as already used (and every other element
    as rejected). *)
Theorem X7_second_run_reports_all_used (bf : BloomFilter.t) (passwords : list obj) :
  BloomFilter.wf bf ->
  Forall (fun p => hashable p = true) passwords ->
  exists results1 bf1 results2,
    check_password_uniqueness bf passwords = (Ok results1, bf1) /\
    check_password_uniqueness bf1 passwords = (Ok results2, bf1) /\
    forall p, p ∈ passwords ->
      results2 !! p = Some (match valid_password p with
                            | Some _ => used_password
                            | None => invalid_password
                            end).
Proof.
  intros Hwf Hall. unfold check_password_uniqueness.
  destruct (PasswordFacts.loop_spec passwords bf ∅ Hwf Hall) as (results1 & Hloop1 & _).
  set (bf1 := foldl filter_after bf passwords) in *.
  assert (Hwf1 : BloomFilter.wf bf1).
  { eapply BloomFilterFacts.extends_wf;
      [exact Hwf | apply PasswordFacts.foldl_filter_after_extends]. }
  assert (Hknown : forall item, Str item ∈ passwords -> item <> "" ->
                     BloomFilter.check bf1 item = Ok true).
  { intros item Hin Hne. by apply PasswordFacts.check_after_seen. }
  destruct (PasswordFacts.loop_spec passwords bf1 ∅ Hwf1 Hall)
    as (results2 & Hloop2 & _ & Hlast).
  rewrite (PasswordMore.foldl_filter_after_known passwords bf1 Hknown) in Hloop2.
  exists results1, bf1, results2. split; [exact Hloop1|]. split; [exact Hloop2|].
  intros p (before & after & Heq & Hnin)%list_elem_of_split_r.
  rewrite (Hlast before p after Heq Hnin).
  rewrite PasswordMore.foldl_filter_after_known.
  - f_equal. apply PasswordMore.filter_after_known.
    intros item [-> Hne]%PasswordFacts.valid_password_str.
    apply Hknown; [|done]. rewrite Heq. set_solver.
  - intros item Hin. apply Hknown. rewrite Heq. set_solver.
Qed.

Lemma X7_witness :
  exists results1 bf1 results2,
    check_password_uniqueness (BloomFilter.mk 1000 3 (replicate 1000 false))
      [Str "a"; Num 7; Str "b"] = (Ok results1, bf1) /\
    check_password_uniqueness bf1 [Str "a"; Num 7; Str "b"] = (Ok results2, bf1) /\
    forall p, p ∈ [Str "a"; Num 7; Str "b"] ->
      results2 !! p = Some (match valid_password p with
                            | Some _ => used_password
                            | None => invalid_password
                            end).
Proof.
  apply (X7_second_run_reports_all_used (BloomFilter.mk 1000 3 (replicate 1000 false))).
  - split; [simpl; lia | reflexivity].
  - repeat constructor.
Defined.

(** X8. An unhashable element stops the check with [TypeError] at its turn:
    no dict is returned, and the filter keeps what the turns before it
    added. *)
Theorem X8_unhashable_element_raises (bf : BloomFilter.t)
    (before after : list obj) (x : obj) :
  BloomFilter.wf bf ->
  Forall (fun p => hashable p = true) before ->
  hashable x = false ->
  exists results0 bf0,
    check_password_uniqueness bf before = (Ok results0, bf0) /\
    check_password_uniqueness bf (before ++ x :: after) = (Raise TypeError, bf0).
Proof.
  intros Hwf Hbefore Hx. unfold check_password_uniqueness.
  destruct (PasswordFacts.loop_app before bf ∅ (x :: after) Hwf Hbefore)
    as (results0 & Hr0 & Happ).
  exists results0, (foldl filter_after bf before). split; [exact Hr0|].
  rewrite Happ. destruct x; try discriminate Hx. reflexivity.
Qed.

Lemma X8_witness :
  exists results0 bf0,
    check_password_uniqueness (BloomFilter.mk 1000 3 (replicate 1000 false))
      [Str "a"] = (Ok results0, bf0) /\
    check_password_uniqueness (BloomFilter.mk 1000 3 (replicate 1000 false))
      ([Str "a"] ++ List_ [1; 2] :: [Str "b"]) = (Raise TypeError, bf0).
Proof.
  apply (X8_unhashable_element_raises (BloomFilter.mk 1000 3 (replicate 1000 false))).
  - split; [simpl; lia | reflexivity].
  - repeat constructor.
  - reflexivity.
Defined.

(** X9. Elements that are not non-empty strings never reach the filter: on
    any filter whatever, also one of size 0, a list of such (hashable)
    elements is answered with the rejection status for each of them and the
    filter is returned as it was. *)
Theorem X9_rejected_elements_leave_the_filter (bf : BloomFilter.t)
    (passwords : list obj) :
  Forall (fun p => hashable p = true /\ valid_password p = None) passwords ->
  exists results,
    check_password_uniqueness bf passwords = (Ok results, bf) /\
    forall key, results !! key
                = if decide (key ∈ passwords) then Some invalid_password else None.
Proof.
  intros Hall. unfold check_password_uniqueness.
  destruct (PasswordMore.loop_invalid passwords bf ∅ Hall) as (results & Hloop & Hkeys).
  exists results. split; [exact Hloop|]. intros key. rewrite Hkeys.
  case_decide; [done|]. apply lookup_empty.
Qed.

Lemma X9_witness :
  exists results,
    check_password_uniqueness (BloomFilter.mk 0 3 []) [Str ""; Num 0; None_]
      = (Ok results, BloomFilter.mk 0 3 []) /\
    forall key, results !! key
                = if decide (key ∈ [Str ""; Num 0; None_])
                  then Some invalid_password else None.
Proof.
  apply (X9_rejected_elements_leave_the_filter (BloomFilter.mk 0 3 [])).
  repeat constructor.
Defined.

(** ** More on the estimator *)

Module HyperLogLogMore.
Import HyperLogLog HyperLogLogFacts.

Lemma bump_length j r bs : length (bump j r bs) = length bs.
Proof. apply length_insert. Qed.

Lemma bump_lookup j r bs i :
  bump j r bs !! i = (fun v => if decide (i = j) then Z.max v r else v) <$> bs !! i.
Proof.
  unfold bump. rewrite list_lookup_insert.
  destruct (decide (i = j)) as [->|Hne].
  - destruct (bs !! j) as [v|] eqn:Hv.
    + rewrite decide_True by eauto using lookup_lt_Some. reflexivity.
    + rewrite decide_False; [done|]. intros [_ Hlt].
      apply lookup_lt_is_Some_2 in Hlt as [? ?]. congruence.
  - rewrite decide_False by (intros [? _]; congruence).
    by destruct (bs !! i).
Qed.

Lemma bump_comm j r j' r' bs :
  bump j r (bump j' r' bs) = bump j' r' (bump j r bs).
Proof.
  apply list_eq. intros i. rewrite !bump_lookup.
  destruct (bs !! i) as [v|]; [|done]. simpl. f_equal.
  repeat case_decide; lia.
Qed.

Lemma bump_idem j r bs : bump j r (bump j r bs) = bump j r bs.
Proof.
  apply list_eq. intros i. rewrite !bump_lookup.
  destruct (bs !! i) as [v|]; [|done]. simpl. f_equal.
  repeat case_decide; lia.
Qed.

Lemma hash_of_ok value : _hash value = Ok (hash_of value).
Proof.
  unfold hash_of. destruct (hash_value_range value) as (x & -> & _). reflexivity.
Qed.

Lemma bucket_of_low_bits self value :
  wf self -> Z.of_nat (bucket_of self value) = hash_of value `mod` 2 ^ b self.
Proof.
  intros (Hb & Hm & _). unfold bucket_of. rewrite Hm.
  replace (2 ^ b self - 1) with (Z.ones (b self)) by (rewrite Z.ones_equiv; lia).
  rewrite Z.land_ones by done.
  pose proof (Z.mod_pos_bound (hash_of value) (2 ^ b self)
                ltac:(apply Z.pow_pos_nonneg; lia)). lia.
Qed.

Lemma bucket_of_lt self value :
  wf self -> (bucket_of self value < length (buckets self))%nat.
Proof.
  intros Hwf. pose proof (bucket_of_low_bits self value Hwf) as Hj.
  destruct Hwf as (Hb & Hm & Hlen).
  pose proof (Z.mod_pos_bound (hash_of value) (2 ^ b self)
                ltac:(apply Z.pow_pos_nonneg; lia)). lia.
Qed.

(** [add] on an estimator as [__init__] makes them. *)
Lemma add_bump self value :
  wf self ->
  add self value
  = (Ok tt, with_buckets self
              (bump (bucket_of self value) (rank_of self value) (buckets self))).
Proof.
  intros Hwf. pose proof (bucket_of_lt self value Hwf) as Hlt.
  pose proof (bucket_of_low_bits self value Hwf) as Hlow.
  unfold add. rewrite hash_of_ok. unfold rshift.
  rewrite decide_False by (destruct Hwf; lia).
  unfold getitem, setitem, bump, rank_of.
  assert (Hidx : index (buckets self) (Z.land (hash_of value) (m self - 1))
                 = Ok (bucket_of self value)).
  { unfold bucket_of in *. apply index_in_range.
    assert (0 <= Z.land (hash_of value) (m self - 1)); [|lia].
    destruct (Z.land (hash_of value) (m self - 1)) eqn:Hl; try lia.
    simpl in Hlow. destruct Hwf as (Hb & Hm & Hlen).
    pose proof (Z.mod_pos_bound (hash_of value) (2 ^ b self)
                  ltac:(apply Z.pow_pos_nonneg; lia)).
    rewrite Hm in Hl.
    replace (2 ^ b self - 1) with (Z.ones (b self)) in Hl
      by (rewrite Z.ones_equiv; lia).
    rewrite Z.land_ones in Hl by done. lia. }
  rewrite Hidx.
  destruct (lookup_lt_is_Some_2 _ _ Hlt) as [old Hold]. rewrite Hold. reflexivity.
Qed.

Lemma with_buckets_wf self bs :
  wf self -> length bs = length (buckets self) -> wf (with_buckets self bs).
Proof. intros (? & ? & ?) Hlen. unfold wf. simpl. rewrite Hlen. done. Qed.

Lemma step_wf self value : wf self -> wf (step self value).
Proof. intros Hwf. apply add_wf, Hwf. Qed.

Lemma step_comm self v v' :
  wf self -> step (step self v) v' = step (step self v') v.
Proof.
  intros Hwf. unfold step.
  rewrite (add_bump self v), (add_bump self v') by done. cbn [snd].
  rewrite !add_bump by (apply with_buckets_wf; [done | apply bump_length]).
  cbn [snd]. unfold with_buckets, bucket_of, rank_of. cbn [b m buckets].
  f_equal. apply bump_comm.
Qed.

Lemma step_idem self v : wf self -> step (step self v) v = step self v.
Proof. intros _. unfold step. by rewrite add_idempotent. Qed.

Lemma add_all_same_elements self values values' :
  wf self -> (forall x, x ∈ values <-> x ∈ values') ->
  add_all self values = add_all self values'.
Proof.
  intros Hwf Hsame. unfold add_all.
  apply (foldl_same_elements step wf); try done.
  - apply step_wf.
  - apply step_comm.
  - apply step_idem.
Qed.

Lemma count_unique_add_all values b0 :
  0 <= b0 ->
  count_unique_hyperloglog values b0
  = count (add_all (mk b0 (2 ^ b0) (replicate (Z.to_nat (2 ^ b0)) 0)) values).
Proof.
  intros Hb. unfold count_unique_hyperloglog. rewrite init_ok by done.
  cbn [mbind result_bind]. rewrite add_each_wf; [done|].
  eapply estimator_init_wf; [exact Hb | by apply init_ok].
Qed.

Lemma nonzero_bump j r bs :
  (length (filter (fun bucket => (bucket <> 0)%Z) (bump j r bs))
   <= S (length (filter (fun bucket => (bucket <> 0)%Z) bs)))%nat.
Proof.
  unfold bump. generalize (Z.max (default 0 (bs !! j)) r). intros v.
  revert j. induction bs as [|x bs IH]; intros [|j]; simpl; try lia.
  - rewrite !filter_cons. repeat case_decide; simpl; lia.
  - rewrite !filter_cons. specialize (IH j). case_decide; simpl; lia.
Qed.

Lemma nonzero_add_all values : forall self,
  wf self ->
  (nonzero_buckets (add_all self values) <= nonzero_buckets self + length values)%nat.
Proof.
  unfold add_all. induction values as [|v values IH]; intros self Hwf; simpl; [lia|].
  specialize (IH (add self v).2 (step_wf self v Hwf)).
  rewrite (add_bump self v Hwf) in IH |- *. unfold nonzero_buckets in *. simpl in *.
  pose proof (nonzero_bump (bucket_of self v) (rank_of self v) (buckets self)). lia.
Qed.

Lemma nonzero_fresh b0 n :
  nonzero_buckets (mk b0 (2 ^ b0) (replicate n 0)) = 0%nat.
Proof.
  unfold nonzero_buckets. simpl. induction n as [|n IH]; [done|]. simpl.
  rewrite filter_cons_False by (intros H; by apply H). exact IH.
Qed.

End HyperLogLogMore.

(** ** The sum [Z] over 1024 buckets *)

Lemma same_float_eq x y : same_float x y = true -> x = y.
Proof.
  unfold same_float. intros H%bool_decide_eq_true. by apply Prim2SF_inj.
Qed.

Lemma half_steps_checked : forallb half_steps (seqZ 1 2047) = true.
Proof. vm_compute. reflexivity. Qed.

Lemma int_steps_checked : forallb int_step (seqZ 0 1024) = true.
Proof. vm_compute. reflexivity. Qed.

Lemma E_1024_checked : forallb (E_1024_within 737.8 1475.7) (seq 0 1025) = true.
Proof. vm_compute. reflexivity. Qed.

Lemma half_steps_below k :
  1 <= k < 2048 ->
  Py.add (Float (half k)) (Int 1) = Ok (Float (half (k + 2))) /\
  Py.add (Float (half k)) (Float 0.5) = Ok (Float (half (k + 1))).
Proof.
  intros Hk. pose proof half_steps_checked as Hall. rewrite forallb_forall in Hall.
  specialize (Hall k). unfold half_steps in Hall.
  destruct (Py.add (Float (half k)) (Int 1)) as [[?|x]|?];
    destruct (Py.add (Float (half k)) (Float 0.5)) as [[?|y]|?];
    try (discriminate Hall; apply list_elem_of_In, elem_of_seqZ; lia).
  apply andb_prop in Hall as [Hx Hy]; [|apply list_elem_of_In, elem_of_seqZ; lia].
  by rewrite (same_float_eq _ _ Hx), (same_float_eq _ _ Hy).
Qed.

Lemma int_step_below z :
  0 <= z < 1024 -> Py.add (Int z) (Float 0.5) = Ok (Float (half (2 * z + 1))).
Proof.
  intros Hz. pose proof int_steps_checked as Hall. rewrite forallb_forall in Hall.
  specialize (Hall z). unfold int_step in Hall.
  destruct (Py.add (Int z) (Float 0.5)) as [[?|x]|?];
    try (discriminate Hall; apply list_elem_of_In, elem_of_seqZ; lia).
  rewrite (same_float_eq x (half (2 * z + 1))); [done|].
  apply Hall, list_elem_of_In, elem_of_seqZ. lia.
Qed.

Lemma partial_sum_step_1024 (z t : nat) :
  (z + t < 1024)%nat ->
  Py.add (HyperLogLog.partial_sum z t) (pow2 (Z.opp 0))
    = Ok (HyperLogLog.partial_sum (S z) t) /\
  Py.add (HyperLogLog.partial_sum z t) (pow2 (Z.opp 1))
    = Ok (HyperLogLog.partial_sum z (S t)).
Proof.
  intros Hlt. change (pow2 (Z.opp 0)) with (Int 1).
  change (pow2 (Z.opp 1)) with (Float 0.5).
  destruct t as [|t].
  - split.
    + cbn [HyperLogLog.partial_sum Py.add]. do 2 f_equal. lia.
    + cbn [HyperLogLog.partial_sum]. rewrite int_step_below by lia. reflexivity.
  - change (HyperLogLog.partial_sum z (S t))
      with (Float (half (2 * Z.of_nat z + Z.of_nat (S t)))).
    change (HyperLogLog.partial_sum (S z) (S t))
      with (Float (half (2 * Z.of_nat (S z) + Z.of_nat (S t)))).
    change (HyperLogLog.partial_sum z (S (S t)))
      with (Float (half (2 * Z.of_nat z + Z.of_nat (S (S t))))).
    destruct (half_steps_below (2 * Z.of_nat z + Z.of_nat (S t)) ltac:(lia)) as [-> ->].
    split; do 3 f_equal; lia.
Qed.

Lemma sum_from_binary_1024 bs : forall z t,
  Forall HyperLogLog.binary bs ->
  (z + t + length bs <= 1024)%nat ->
  exists z' t', (z' + t' = z + t + length bs)%nat /\
    sum_from (HyperLogLog.partial_sum z t) ((fun bucket => pow2 (- bucket)) <$> bs)
      = Ok (HyperLogLog.partial_sum z' t').
Proof.
  induction bs as [|x bs IH]; intros z t Hall Hlen.
  - exists z, t. split; [simpl; lia | reflexivity].
  - apply Forall_cons in Hall as [Hx Hall]. simpl in Hlen.
    destruct (partial_sum_step_1024 z t ltac:(lia)) as [H0 H1].
    cbn [fmap list_fmap sum_from]. destruct Hx as [-> | ->].
    + rewrite H0. destruct (IH (S z) t Hall ltac:(lia)) as (z' & t' & Hsum & Heq).
      exists z', t'. split; [simpl; lia | exact Heq].
    + rewrite H1. destruct (IH z (S t) Hall ltac:(lia)) as (z' & t' & Hsum & Heq).
      exists z', t'. split; [simpl; lia | exact Heq].
Qed.

(** X10. On an estimator as [__init__] makes them ([b >= 0], [2^b]
    buckets), [add] never raises; it keeps [b], [m] and the number of
    buckets, and it replaces one bucket only, the one numbered by the low
    [b] bits of the hash, by the maximum of its value and the rank; every
    other bucket keeps its value. *)
Theorem X10_add_updates_one_bucket (self : HyperLogLog.t) (value : string) :
  HyperLogLog.wf self ->
  exists self' old,
    HyperLogLog.add self value = (Ok tt, self') /\
    HyperLogLog.wf self' /\
    HyperLogLog.b self' = HyperLogLog.b self /\
    HyperLogLog.m self' = HyperLogLog.m self /\
    HyperLogLog._hash value = Ok (hash_of value) /\
    Z.of_nat (bucket_of self value) = hash_of value `mod` 2 ^ HyperLogLog.b self /\
    HyperLogLog.buckets self !! bucket_of self value = Some old /\
    HyperLogLog.buckets self' !! bucket_of self value
      = Some (Z.max old (rank_of self value)) /\
    forall j, j <> bucket_of self value ->
      HyperLogLog.buckets self' !! j = HyperLogLog.buckets self !! j.
Proof.
  intros Hwf.
  pose proof (HyperLogLogMore.bucket_of_lt self value Hwf) as Hlt.
  destruct (lookup_lt_is_Some_2 _ _ Hlt) as [old Hold].
  eexists _, old. split; [apply HyperLogLogMore.add_bump, Hwf|].
  split_and?; try done.
  - apply HyperLogLogMore.with_buckets_wf; [done | apply HyperLogLogMore.bump_length].
  - apply HyperLogLogMore.hash_of_ok.
  - apply HyperLogLogMore.bucket_of_low_bits, Hwf.
  - simpl. rewrite HyperLogLogMore.bump_lookup, Hold. simpl.
    by rewrite decide_True.
  - intros j Hj. simpl. rewrite HyperLogLogMore.bump_lookup.
    destruct (HyperLogLog.buckets self !! j); [|done]. simpl.
    by rewrite decide_False.
Qed.

Lemma X10_witness :
  exists self' old,
    HyperLogLog.add (HyperLogLog.mk 4 16 (replicate 16 0)) "a" = (Ok tt, self') /\
    HyperLogLog.wf self' /\
    HyperLogLog.b self' = 4 /\
    HyperLogLog.m self' = 16 /\
    HyperLogLog._hash "a" = Ok (hash_of "a") /\
    Z.of_nat (bucket_of (HyperLogLog.mk 4 16 (replicate 16 0)) "a")
      = hash_of "a" `mod` 2 ^ 4 /\
    replicate 16 0 !! bucket_of (HyperLogLog.mk 4 16 (replicate 16 0)) "a" = Some old /\
    HyperLogLog.buckets self' !! bucket_of (HyperLogLog.mk 4 16 (replicate 16 0)) "a"
      = Some (Z.max old (rank_of (HyperLogLog.mk 4 16 (replicate 16 0)) "a")) /\
    forall j, j <> bucket_of (HyperLogLog.mk 4 16 (replicate 16 0)) "a" ->
      HyperLogLog.buckets self' !! j = replicate 16 0 !! j.
Proof.
  apply (X10_add_updates_one_bucket (HyperLogLog.mk 4 16 (replicate 16 0)) "a").
  unfold HyperLogLog.wf. simpl. lia.
Defined.

(** X11. The estimate depends only on which values were seen:
    [count_unique_hyperloglog] returns the same result for two lists with
    the same elements, whatever the order and the repetitions, for every
    [b]. *)
Theorem X11_estimate_depends_on_the_set_seen
    (ip_addresses ip_addresses' : list string) (b : Z) :
  (forall x, x ∈ ip_addresses <-> x ∈ ip_addresses') ->
  count_unique_hyperloglog ip_addresses b = count_unique_hyperloglog ip_addresses' b.
Proof.
  intros Hsame. destruct (decide (0 <= b)) as [Hb|Hb].
  - rewrite !HyperLogLogMore.count_unique_add_all by done. f_equal.
    apply HyperLogLogMore.add_all_same_elements; [|done].
    eapply HyperLogLogFacts.estimator_init_wf;
      [exact Hb | by apply HyperLogLogFacts.init_ok].
  - unfold count_unique_hyperloglog, HyperLogLog.__init__, lshift.
    rewrite decide_True by lia. reflexivity.
Qed.

Lemma X11_witness :
  count_unique_hyperloglog ["10.0.0.1"; "10.0.0.2"; "10.0.0.1"] 10
  = count_unique_hyperloglog ["10.0.0.2"; "10.0.0.1"] 10.
Proof.
  apply (X11_estimate_depends_on_the_set_seen
           ["10.0.0.1"; "10.0.0.2"; "10.0.0.1"] ["10.0.0.2"; "10.0.0.1"] 10).
  intros x. rewrite !elem_of_cons, elem_of_nil. tauto.
Defined.

(** X12. With [b = 10], the default of [count_unique_hyperloglog], the call
    never raises and the estimate lies between 737.8 and 1475.7 whatever
    the addresses and however many of them are distinct: every rank is 1,
    so a bucket only records that it was hit. *)
Theorem X12_default_estimate_is_confined (ip_addresses : list string) :
  exists e,
    count_unique_hyperloglog ip_addresses 10 = Ok (Float e) /\
    PrimFloat.leb 737.8 e = true /\
    PrimFloat.leb e 1475.7 = true.
Proof.
  rewrite HyperLogLogMore.count_unique_add_all by lia.
  set (self0 := HyperLogLog.mk 10 _ _).
  destruct (HyperLogLogFacts.add_all_fields ip_addresses self0) as (Hb & Hm & Hlen).
  assert (Hbin : Forall HyperLogLog.binary
                   (HyperLogLog.buckets (HyperLogLog.add_all self0 ip_addresses))).
  { apply HyperLogLogFacts.add_all_binary. unfold self0. cbn [HyperLogLog.buckets].
    apply Forall_replicate. by left. }
  destruct (HyperLogLog.add_all self0 ip_addresses) as [b m bs].
  cbn [HyperLogLog.b HyperLogLog.m HyperLogLog.buckets self0] in *. subst b m.
  rewrite length_replicate in Hlen. change (Z.to_nat (2 ^ 10)) with 1024%nat in Hlen.
  destruct (sum_from_binary_1024 bs 0 0 Hbin ltac:(lia)) as (z & t & Hzt & Hsum).
  unfold HyperLogLog.count, sum. cbn [HyperLogLog.buckets HyperLogLog.m].
  change (Int 0) with (HyperLogLog.partial_sum 0 0). rewrite Hsum.
  cbn [mbind result_bind]. change (2 ^ 10) with 1024.
  assert (z = 1024 - t)%nat as -> by lia.
  pose proof E_1024_checked as Hall. rewrite forallb_forall in Hall.
  specialize (Hall t ltac:(apply in_seq; lia)). unfold E_1024_within in Hall.
  destruct (HyperLogLog.E 1024 _) as [[?|e]|?]; try discriminate.
  apply andb_prop in Hall as [Hlo Hhi]. eauto.
Qed.

(** X13. [count_unique_exact] counts every distinct address once: the count
    is between 0 and the length of the list, it is the length when no
    address is repeated, it is the same for two lists with the same
    elements, and a further address raises it by one when it is new and
    leaves it alone when it is not. *)
Theorem X13_exact_count (ip_addresses : list string) :
  0 <= count_unique_exact ip_addresses <= Z.of_nat (length ip_addresses) /\
  (NoDup ip_addresses ->
   count_unique_exact ip_addresses = Z.of_nat (length ip_addresses)) /\
  (forall ip_addresses',
     (forall x, x ∈ ip_addresses <-> x ∈ ip_addresses') ->
     count_unique_exact ip_addresses = count_unique_exact ip_addresses') /\
  (forall ip,
     count_unique_exact (ip :: ip_addresses)
     = if decide (ip ∈ ip_addresses) then count_unique_exact ip_addresses
       else count_unique_exact ip_addresses + 1) /\
  (count_unique_exact ip_addresses = 0 <-> ip_addresses = []).
Proof.
  unfold count_unique_exact.
  assert (Hlen : forall l : list string,
            (size (list_to_set l : gset string) <= length l)%nat).
  { induction l as [|x l IH]; [done|]. cbn [list_to_set foldr length].
    pose proof (size_union_alt {[x]} (list_to_set l : gset string)) as Hu.
    assert (Hsub : list_to_set l ∖ {[x]} ⊆ (list_to_set l : gset string))
      by (intros y [Hy _]%elem_of_difference; exact Hy).
    pose proof (subseteq_size _ _ Hsub) as Hs.
    rewrite size_singleton in Hu. lia. }
  split_and?.
  - lia.
  - specialize (Hlen ip_addresses). lia.
  - intros Hnd. by rewrite size_list_to_set.
  - intros l' Hsame. do 2 f_equal. apply set_eq. intros x.
    rewrite !elem_of_list_to_set. apply Hsame.
  - intros ip. simpl. case_decide as Hin.
    + do 2 f_equal. apply set_eq. intros x.
      rewrite elem_of_union, elem_of_singleton, !elem_of_list_to_set.
      split; [intros [->|]; done | auto].
    + rewrite size_union by (apply disjoint_singleton_l; by rewrite elem_of_list_to_set).
      rewrite size_singleton. lia.
  - split.
    + intros Hz. destruct ip_addresses as [|x l]; [done|]. exfalso.
      assert (Hs : size (list_to_set (x :: l) : gset string) = 0%nat) by lia.
      apply size_empty_iff in Hs. simpl in Hs.
      assert (x ∈ ({[x]} ∪ list_to_set l : gset string)) as Hx
        by (apply elem_of_union_l, elem_of_singleton; reflexivity).
      rewrite Hs in Hx. by apply not_elem_of_empty in Hx.
    + intros ->. done.
Qed.

(** X14. The estimator records at most one bucket per distinct address:
    after [count_unique_hyperloglog]'s loop on an estimator constructed
    with [b >= 0], the number of buckets that are not zero is at most the
    exact count of unique addresses, and at most the number of buckets. *)
Theorem X14_buckets_hit_at_most_distinct (b : Z) (self0 : HyperLogLog.t)
    (ip_addresses : list string) :
  0 <= b ->
  HyperLogLog.__init__ b = Ok self0 ->
  add_each self0 ip_addresses = (Ok tt, HyperLogLog.add_all self0 ip_addresses) /\
  Z.of_nat (nonzero_buckets (HyperLogLog.add_all self0 ip_addresses))
    <= count_unique_exact ip_addresses /\
  Z.of_nat (nonzero_buckets (HyperLogLog.add_all self0 ip_addresses)) <= 2 ^ b.
Proof.
  intros Hb Hinit.
  pose proof (HyperLogLogFacts.estimator_init_wf b self0 Hb Hinit) as Hwf.
  split; [apply HyperLogLogFacts.add_each_wf, Hwf|].
  split.
  - rewrite (HyperLogLogMore.add_all_same_elements self0 ip_addresses
               (remove_dups ip_addresses)) by (done || intros x; by rewrite elem_of_remove_dups).
    pose proof (HyperLogLogMore.nonzero_add_all (remove_dups ip_addresses) self0 Hwf) as Hle.
    assert (Hzero : nonzero_buckets self0 = 0%nat).
    { revert Hinit. rewrite HyperLogLogFacts.init_ok by done. intros [= <-].
      apply HyperLogLogMore.nonzero_fresh. }
    unfold count_unique_exact.
    rewrite <- (size_list_to_set (C := gset string) (remove_dups ip_addresses))
      in Hle by apply NoDup_remove_dups.
    replace (list_to_set (remove_dups ip_addresses) : gset string)
      with (list_to_set ip_addresses : gset string) in Hle.
    + lia.
    + apply set_eq. intros x. by rewrite !elem_of_list_to_set, elem_of_remove_dups.
  - destruct (HyperLogLogFacts.add_all_fields ip_addresses self0) as (_ & _ & Hlen).
    destruct Hwf as (_ & Hm & Hl). unfold nonzero_buckets.
    assert (HyperLogLog.b self0 = b)
      by (revert Hinit; rewrite HyperLogLogFacts.init_ok by done; by intros [= <-]).
    pose proof (length_filter (fun bucket => bucket <> 0)
                  (HyperLogLog.buckets (HyperLogLog.add_all self0 ip_addresses))).
    rewrite H in Hm. lia.
Qed.

Lemma X14_witness :
  add_each (HyperLogLog.mk 4 16 (replicate 16 0)) ["a"; "b"; "a"]
    = (Ok tt, HyperLogLog.add_all (HyperLogLog.mk 4 16 (replicate 16 0)) ["a"; "b"; "a"]) /\
  Z.of_nat (nonzero_buckets
    (HyperLogLog.add_all (HyperLogLog.mk 4 16 (replicate 16 0)) ["a"; "b"; "a"]))
    <= count_unique_exact ["a"; "b"; "a"] /\
  Z.of_nat (nonzero_buckets
    (HyperLogLog.add_all (HyperLogLog.mk 4 16 (replicate 16 0)) ["a"; "b"; "a"]))
    <= 2 ^ 4.
Proof.
  apply (X14_buckets_hit_at_most_distinct 4); [lia | reflexivity].
Defined.

(** ** Reading the log file *)

Section LogFileFacts.
Variable digit : Z -> bool.

Lemma rep_sound r hi :
  (forall s k x, run digit r s k = Some x ->
     exists s1 s2, s = s1 ++ s2 /\ matches digit r s1 /\ k s2 = Some x) ->
  forall lo s k x, rep (run digit r) hi lo s k = Some x ->
    exists s1 s2, s = s1 ++ s2 /\ matches digit (Rep r lo hi) s1 /\ k s2 = Some x.
Proof.
  intros Hbody. induction hi as [|hi IH]; intros lo s k x; cbn [rep].
  - case_decide as Hlo; [|done]. subst lo. intros Hk.
    exists [], s. split_and?; [done | constructor | done].
  - destruct (run digit r s _) as [x0|] eqn:Hrun.
    + intros [= ->]. apply Hbody in Hrun as (s1 & s2 & -> & Hm & Hrest).
      apply IH in Hrest as (s1' & s2' & -> & Hm' & Hk).
      exists (s1 ++ s1'), s2'. split_and?; [by rewrite app_assoc | | done].
      by constructor.
    + case_decide as Hlo; [|done]. subst lo. intros Hk.
      exists [], s. split_and?; [done | constructor | done].
Qed.

Lemma run_sound r : forall s k x,
  run digit r s k = Some x ->
  exists s1 s2, s = s1 ++ s2 /\ matches digit r s1 /\ k s2 = Some x.
Proof.
  induction r as [|a|r1 IH1 r2 IH2|r IH lo hi]; intros s k x; cbn [run].
  - destruct s as [|c s']; [done|]. destruct (digit c) eqn:Hc; [|done].
    intros Hk. exists [c], s'. split_and?; [done | by constructor | done].
  - destruct s as [|c s']; [done|]. destruct (Z.eqb_spec c a) as [->|]; [|done].
    intros Hk. exists [a], s'. split_and?; [done | constructor | done].
  - intros (s1 & s2 & -> & Hm1 & Hrest)%IH1.
    apply IH2 in Hrest as (s1' & s2' & -> & Hm2 & Hk).
    exists (s1 ++ s1'), s2'. split_and?; [by rewrite app_assoc | by constructor | done].
  - apply rep_sound, IH.
Qed.

Lemma run_complete r s1 :
  matches digit r s1 ->
  forall k s2, is_Some (k s2) -> is_Some (run digit r (s1 ++ s2) k).
Proof.
  induction 1 as [c Hc|a|r1 r2 s1 s2 _ IH1 _ IH2|r hi|r lo hi s1 s2 _ IH1 _ IH2];
    intros k s3 Hk; cbn [run].
  - simpl. by rewrite Hc.
  - simpl. by rewrite Z.eqb_refl.
  - rewrite <- app_assoc. apply IH1, IH2, Hk.
  - simpl. destruct hi as [|hi]; cbn [rep]; [done|].
    destruct (run digit r s3 _); [eauto|done].
  - rewrite <- app_assoc. cbn [rep].
    destruct (IH1 (fun s' => rep (run digit r) hi (pred lo) s' k) (s2 ++ s3)) as [x ->];
      [|eauto].
    apply (IH2 k s3 Hk).
Qed.

Lemma take_matched (s1 rest : list Z) :
  take (length (s1 ++ rest) - length rest) (s1 ++ rest) = s1.
Proof. rewrite length_app, Nat.add_sub. apply take_app_length. Qed.

Lemma search_sound r line ip :
  search digit r line = Some ip ->
  exists pre post, line = pre ++ ip ++ post /\ matches digit r ip.
Proof.
  assert (Hhere : forall l rest, run digit r l Some = Some rest ->
            exists pre post,
              l = pre ++ take (length l - length rest) l ++ post /\
              matches digit r (take (length l - length rest) l)).
  { intros l rest (s1 & s2 & -> & Hm & [= ->])%run_sound.
    exists [], rest. rewrite take_matched. done. }
  induction line as [|c line IH]; cbn [search].
  - destruct (run digit r [] Some) as [rest|] eqn:Hrun; [|done].
    pose proof (Hhere _ _ Hrun) as Hnil. rewrite take_nil in Hnil.
    rewrite take_nil. intros [= <-]. exact Hnil.
  - destruct (run digit r (c :: line) Some) as [rest|] eqn:Hrun.
    + intros [= <-]. by apply Hhere.
    + intros (pre & post & -> & Hm)%IH. exists (c :: pre), post. done.
Qed.

Lemma search_complete r pre ip post :
  matches digit r ip -> is_Some (search digit r (pre ++ ip ++ post)).
Proof.
  intros Hm. induction pre as [|c pre IH].
  - simpl app. destruct (run_complete r ip Hm Some post) as [rest Hrest]; [done|].
    destruct (ip ++ post); cbn [search]; rewrite Hrest; done.
  - simpl app. cbn [search]. destruct (run digit r _ Some); done.
Qed.

Lemma matches_digits r s :
  matches digit r s ->
  forall lo hi, r = Rep Digit lo hi ->
    (lo <= length s <= hi)%nat /\ Forall (fun c => digit c = true) s.
Proof.
  induction 1 as [| | |r hi|r lo hi s1 s2 Hm1 _ _ IH2]; intros lo' hi' Heq;
    try discriminate.
  - injection Heq as -> <- <-. simpl. split; [lia | constructor].
  - injection Heq as -> <- <-. inversion Hm1 as [c Hc| | | |]; subst.
    destruct (IH2 _ _ eq_refl) as [Hlen Hall]. simpl. split; [lia|].
    by constructor.
Qed.

Lemma digits_match s : forall lo hi,
  (lo <= length s <= hi)%nat -> Forall (fun c => digit c = true) s ->
  matches digit (Rep Digit lo hi) s.
Proof.
  induction s as [|c s IH]; intros lo hi Hlen Hall; simpl in Hlen.
  - replace lo with 0%nat by lia. constructor.
  - apply Forall_cons in Hall as [Hc Hall].
    destruct hi as [|hi]; [lia|].
    apply (matches_rep_more digit Digit lo hi [c] s); [by constructor|].
    apply IH; [lia | done].
Qed.

Lemma matches_group s :
  matches digit (Seq (Rep Digit 1 3) (Lit 46)) s ->
  exists a, s = a ++ [46] /\ digit_group digit a.
Proof.
  intros Hm. inversion Hm as [| |r1 r2 s1 s2 H1 H2| |]; subst.
  inversion H2; subst. exists s1. split; [done|].
  by apply (matches_digits _ _ H1 1%nat 3%nat).
Qed.

Lemma ip_pattern_dotted_quad ip :
  matches digit ip_pattern ip <-> dotted_quad digit ip.
Proof.
  unfold ip_pattern. split.
  - intros Hm. inversion Hm as [| |r1 r2 s123 d H123 Hd| |]; subst.
    inversion H123 as [| | | |r lo hi g1 s23 Hg1 H23]; subst.
    inversion H23 as [| | | |r lo hi g2 s3 Hg2 H3]; subst.
    inversion H3 as [| | | |r lo hi g3 s0 Hg3 H0]; subst.
    inversion H0; subst.
    apply matches_group in Hg1 as (a & -> & Ha).
    apply matches_group in Hg2 as (b & -> & Hb).
    apply matches_group in Hg3 as (c & -> & Hc).
    exists a, b, c, d. split_and?; try done.
    + rewrite app_nil_r. by rewrite <- !app_assoc.
    + by apply (matches_digits _ _ Hd 1%nat 3%nat).
  - intros (a & b & c & d & -> & [Ha1 Ha2] & [Hb1 Hb2] & [Hc1 Hc2] & [Hd1 Hd2]).
    assert (Hgroup : forall g, (1 <= length g <= 3)%nat ->
              Forall (fun c => digit c = true) g ->
              matches digit (Seq (Rep Digit 1 3) (Lit 46)) (g ++ [46])).
    { intros g Hg1 Hg2. constructor; [by apply digits_match | constructor]. }
    replace (a ++ [46] ++ b ++ [46] ++ c ++ [46] ++ d)
      with (((a ++ [46]) ++ (b ++ [46]) ++ (c ++ [46]) ++ []) ++ d)
      by (rewrite app_nil_r; by rewrite <- !app_assoc).
    constructor; [|by apply digits_match].
    apply (matches_rep_more digit _ 3 2); [by apply Hgroup|].
    apply (matches_rep_more digit _ 2 1); [by apply Hgroup|].
    apply (matches_rep_more digit _ 1 0); [by apply Hgroup|].
    constructor.
Qed.

Lemma load_loop_omap lines : forall acc,
  load_loop digit lines acc = acc ++ omap (search digit ip_pattern) lines.
Proof.
  induction lines as [|line lines IH]; intros acc; cbn [load_loop omap list_omap].
  - by rewrite app_nil_r.
  - destruct (search digit ip_pattern line) as [ip|]; rewrite IH; [|done].
    by rewrite <- app_assoc.
Qed.

End LogFileFacts.

Section Greedy.
Variable digit : Z -> bool.
Hypothesis dot_not_digit : digit 46 = false.

(** A run of digits that ends where digits end, or at the most the
    repetition allows, is taken whole. *)
Lemma rep_digits ds : forall hi lo s k x,
  Forall (fun c => digit c = true) ds ->
  (lo <= length ds <= hi)%nat ->
  length ds = hi \/ (forall c s', s = c :: s' -> digit c = false) ->
  k s = Some x ->
  rep (run digit Digit) hi lo (ds ++ s) k = Some x.
Proof.
  induction ds as [|c ds IH]; intros hi lo s k x Hall Hlen Hend Hk.
  - simpl in *. assert (lo = 0%nat) as -> by lia.
    destruct hi as [|hi]; cbn [rep]; [done|].
    destruct Hend as [Hend|Hend]; [done|].
    destruct s as [|c s']; [done|].
    change (run digit Digit (c :: ?t) ?k0) with (if digit c then k0 t else None).
    by rewrite (Hend c s' eq_refl).
  - apply Forall_cons in Hall as [Hc Hall]. simpl in Hlen.
    destruct hi as [|hi]; [lia|]. simpl app. cbn [rep].
    change (run digit Digit (c :: ?t) ?k0) with (if digit c then k0 t else None).
    rewrite Hc. cbv beta.
    rewrite (IH hi (pred lo) s k x); try done; [lia|].
    destruct Hend as [Hend|Hend]; [left; simpl in Hend; lia | by right].
Qed.

Lemma rep_first body hi lo (s : list Z) k (x : list Z) :
  body s (fun s' => rep body hi (pred lo) s' k) = Some x ->
  rep body (S hi) lo s k = Some x.
Proof. intros Hbody. cbn [rep]. by rewrite Hbody. Qed.

Lemma run_group a s k x :
  digit_group digit a -> k s = Some x ->
  run digit (Seq (Rep Digit 1 3) (Lit 46)) (a ++ 46 :: s) k = Some x.
Proof.
  intros [Hlen Hall] Hk. cbn [run]. apply rep_digits; try done.
  right. by intros c s' [= <- _].
Qed.

Lemma run_ip_pattern a b c d rest :
  digit_group digit a -> digit_group digit b ->
  digit_group digit c -> digit_group digit d ->
  length d = 3%nat \/ (forall ch rest', rest = ch :: rest' -> digit ch = false) ->
  run digit ip_pattern (a ++ [46] ++ b ++ [46] ++ c ++ [46] ++ d ++ rest) Some
  = Some rest.
Proof.
  intros Ha Hb Hc [Hd1 Hd2] Hend. unfold ip_pattern.
  change (rep (run digit (Seq (Rep Digit 1 3) (Lit 46))) 3 3
            (a ++ [46] ++ b ++ [46] ++ c ++ [46] ++ d ++ rest)
            (fun s' => rep (run digit Digit) 3 1 s' Some) = Some rest).
  assert (Hlast : rep (run digit Digit) 3 1 (d ++ rest) Some = Some rest)
    by (by apply rep_digits).
  apply rep_first, (run_group a); [done|].
  apply rep_first, (run_group b); [done|].
  apply rep_first, (run_group c); [done|].
  exact Hlast.
Qed.

Lemma search_here r line rest :
  run digit r line Some = Some rest ->
  search digit r line = Some (take (length line - length rest) line).
Proof. intros Hrun. destruct line; cbn [search]; by rewrite Hrun. Qed.

End Greedy.

(** X15. [load_log_file] returns, in the order of the lines, what the
    search finds in each line that has a match, so at most one address per
    line; every address returned is a piece of its line made of four groups
    of one to three digits with dots between them. *)
Theorem X15_addresses_are_dotted_quads (digit : Z -> bool) (lines : list (list Z)) :
  load_log_file digit lines = omap (search digit ip_pattern) lines /\
  (length (load_log_file digit lines) <= length lines)%nat /\
  forall ip, ip ∈ load_log_file digit lines ->
    dotted_quad digit ip /\
    exists line pre post, line ∈ lines /\ line = pre ++ ip ++ post.
Proof.
  assert (Heq : load_log_file digit lines = omap (search digit ip_pattern) lines)
    by apply load_loop_omap.
  rewrite Heq. split; [done|]. split.
  - clear Heq. induction lines as [|line lines IH]; [done|]. cbn [omap list_omap].
    destruct (search digit ip_pattern line); simpl; lia.
  - intros ip (line & Hline & Hsearch)%list_elem_of_omap.
    apply search_sound in Hsearch as (pre & post & -> & Hm).
    split; [by apply ip_pattern_dotted_quad | eauto].
Qed.

(** X16. A line is passed over exactly when no piece of it is a dotted
    quad: the list returned is empty if and only if no line contains one,
    and it has one address per line when every line contains one. *)
Theorem X16_lines_without_address_are_skipped (digit : Z -> bool)
    (lines : list (list Z)) :
  (load_log_file digit lines = [] <->
   forall line pre q post,
     line ∈ lines -> line = pre ++ q ++ post -> ~ dotted_quad digit q) /\
  ((forall line, line ∈ lines ->
      exists pre q post, line = pre ++ q ++ post /\ dotted_quad digit q) ->
   length (load_log_file digit lines) = length lines).
Proof.
  unfold load_log_file. rewrite load_loop_omap. simpl. split.
  - split.
    + intros Hnil line pre q post Hline -> Hq.
      destruct (search_complete digit ip_pattern pre q post) as [ip Hip];
        [by apply ip_pattern_dotted_quad|].
      assert (ip ∈ omap (search digit ip_pattern) lines) as Hin
        by (apply list_elem_of_omap; eauto).
      rewrite Hnil in Hin. by apply not_elem_of_nil in Hin.
    + intros Hnone. induction lines as [|line lines IH]; [done|].
      cbn [omap list_omap].
      destruct (search digit ip_pattern line) as [ip|] eqn:Hs.
      * apply search_sound in Hs as (pre & post & Heq & Hm). exfalso.
        apply (Hnone line pre ip post); [apply list_elem_of_here | done |].
        by apply ip_pattern_dotted_quad.
      * apply IH. intros l pre q post Hl. apply Hnone. by apply list_elem_of_further.
  - intros Hall. induction lines as [|line lines IH]; [done|].
    cbn [omap list_omap].
    destruct (Hall line) as (pre & q & post & -> & Hq); [apply list_elem_of_here|].
    destruct (search_complete digit ip_pattern pre q post) as [ip ->];
      [by apply ip_pattern_dotted_quad|].
    simpl. f_equal. apply IH. intros l Hl. apply Hall. by apply list_elem_of_further.
Qed.

(** X17. Nothing checks the value of a group: a line that starts with four
    groups of one to three digits with dots between them yields exactly
    that text, whatever numbers the groups spell, when the last group has
    three digits (digits after it are cut off) or is not followed by a
    digit.  (The dot is not a digit.) *)
Theorem X17_groups_are_not_range_checked (digit : Z -> bool)
    (a b c d rest : list Z) :
  digit 46 = false ->
  digit_group digit a -> digit_group digit b ->
  digit_group digit c -> digit_group digit d ->
  length d = 3%nat \/ (forall ch rest', rest = ch :: rest' -> digit ch = false) ->
  load_log_file digit [a ++ [46] ++ b ++ [46] ++ c ++ [46] ++ d ++ rest]
  = [a ++ [46] ++ b ++ [46] ++ c ++ [46] ++ d].
Proof.
  intros Hdot Ha Hb Hc Hd Hend.
  pose proof (run_ip_pattern digit Hdot a b c d rest Ha Hb Hc Hd Hend) as Hrun.
  set (q := a ++ [46] ++ b ++ [46] ++ c ++ [46] ++ d).
  assert (Heq : a ++ [46] ++ b ++ [46] ++ c ++ [46] ++ d ++ rest = q ++ rest)
    by (unfold q; by rewrite <- !app_assoc).
  rewrite Heq in Hrun |- *. unfold load_log_file. cbn [load_loop].
  rewrite (search_here digit ip_pattern _ rest Hrun). cbn [load_loop app].
  by rewrite take_matched.
Qed.

Lemma X17_witness :
  load_log_file ascii_digit
    [chars "999" ++ [46] ++ chars "0" ++ [46] ++ chars "300" ++ [46] ++ chars "256"
       ++ chars "7 - GET /index"]
  = [chars "999" ++ [46] ++ chars "0" ++ [46] ++ chars "300" ++ [46] ++ chars "256"].
Proof.
  apply (X17_groups_are_not_range_checked ascii_digit
           (chars "999") (chars "0") (chars "300") (chars "256")
           (chars "7 - GET /index")).
  - reflexivity.
  - split; [simpl; lia | repeat constructor].
  - split; [simpl; lia | repeat constructor].
  - split; [simpl; lia | repeat constructor].
  - split; [simpl; lia | repeat constructor].
  - left. reflexivity.
Defined.
